(** * dongguaTV server: a shallow embedding of [server.js]

    The development follows the layout of the source file:
    - [Js]            JSON values as the handlers see them (truthiness,
                      property access, array [map], object spread);
    - [Cache]         the [CacheManager] class (lines 58-109);
    - [Search]        the streaming GET search and the POST search;
    - [Detail]        the GET and POST detail endpoints;
    - [Image]         the image proxy and its on-disk cache;
    - [Sweep]         [cleanCacheIfNeeded] and the eviction pass;
    - [Proxy]         the TMDB proxy;
    - [Directory]     [/api/sites] and [getDB];
    - [Auth]          the access password.

    Conventions.  [Date.now()] is an explicit argument [now : Z]
    (milliseconds).  A JS object used as a dictionary is a [gmap string _].
    An [await] splits a handler in two functions: the part that runs up to
    the [await] and the continuation that runs when the awaited call has
    settled; the scheduler that interleaves continuations is a step
    relation.  A thrown exception is [None] (or a dedicated constructor)
    and is propagated to the nearest [catch] of the source.

    Scope of the model.
    - JSON numbers are integers; the properties of an object literal are
      an association list in insertion order.
    - The cache maps are plain dictionaries.  In the source they are
      object literals, where an assignment under the key [__proto__]
      replaces the prototype of the object instead of adding an entry;
      the statements on what a [set] leaves alone exclude that key
      ([Cache.proto_key]).
    - [fs.writeFileSync] in [saveDisk] succeeds.  The calls whose failure
      the source handles are modelled with their failure: the upstream
      requests, the download pipeline, [fs.unlinkSync] in the eviction
      pass.
    - One request is followed at a time; other requests change the cache
      and the disk only between the two halves of a handler, where the
      continuation takes the current state as an argument.
    - Sums of file sizes are integers, exact in double precision below
      2^53 bytes; [maxBytes * 0.9] and its difference from the total are
      rounded as doubles are ([Sweep.round53]). *)

From stdpp Require Import gmap strings list fin_maps.
From Stdlib Require Import ZArith Lia Ascii String List.
From Stdlib Require Import DecimalString Sorted Permutation.
Import ListNotations.

Local Open Scope string_scope.
Local Open Scope Z_scope.

#[local] Set Warnings "-register-all".

(** ** JSON values *)

Module Js.

Inductive jsval : Type :=
| JUndefined
| JNull
| JBool (b : bool)
| JNum (n : Z)
| JStr (s : string)
| JArr (xs : list jsval)
| JObj (fields : list (string * jsval)).

(** [!!v] / [if (v)] of JavaScript. *)
Definition truthy (v : jsval) : bool :=
  match v with
  | JUndefined | JNull => false
  | JBool b => b
  | JNum n => negb (n =? 0)
  | JStr s => negb (String.eqb s "")
  | JArr _ | JObj _ => true
  end.

Fixpoint assoc (k : string) (fs : list (string * jsval)) : option jsval :=
  match fs with
  | [] => None
  | (k', v) :: fs' => if String.eqb k k' then Some v else assoc k fs'
  end.

(** [o[k] = v] on an object literal: an existing key keeps its place. *)
Fixpoint assoc_set (k : string) (v : jsval) (fs : list (string * jsval))
  : list (string * jsval) :=
  match fs with
  | [] => [(k, v)]
  | (k', v') :: fs' =>
      if String.eqb k k' then (k, v) :: fs' else (k', v') :: assoc_set k v fs'
  end.

(** [v.k] for one of the data property names the handlers read
    ([list], [vod_id], ...).  Reading a property of [null] or [undefined]
    throws a TypeError ([None]); on every other value a missing property
    is [undefined]. *)
Definition get_prop (v : jsval) (k : string) : option jsval :=
  match v with
  | JUndefined | JNull => None
  | JObj fs => Some (default JUndefined (assoc k fs))
  | _ => Some JUndefined
  end.

Definition nat_to_key (n : nat) : string :=
  NilEmpty.string_of_uint (Nat.to_uint n).

Fixpoint index_from {A} (i : nat) (xs : list A) : list (string * A) :=
  match xs with
  | [] => []
  | x :: xs' => (nat_to_key i, x) :: index_from (S i) xs'
  end.

Fixpoint chars (s : string) : list jsval :=
  match s with
  | EmptyString => []
  | String c s' => JStr (String c EmptyString) :: chars s'
  end.

(** The own enumerable properties copied by [{...v}]. *)
Definition spread (v : jsval) : list (string * jsval) :=
  match v with
  | JObj fs => fs
  | JArr xs => index_from 0 xs
  | JStr s => index_from 0 (chars s)
  | _ => []
  end.

Definition is_array (v : jsval) : bool :=
  match v with JArr _ => true | _ => false end.

(** [xs.map(f)] where [f] may throw. *)
Fixpoint map_throw {A B} (f : A -> option B) (xs : list A) : option (list B) :=
  match xs with
  | [] => Some []
  | x :: xs' =>
      match f x with
      | None => None
      | Some y =>
          match map_throw f xs' with
          | None => None
          | Some ys => Some (y :: ys)
          end
      end
  end.

End Js.
Export Js.

(** ** The cache abstraction *)

Module Cache.

(** [process.env.CACHE_TYPE || 'json']: the comment of the source lists
    [json], [sqlite], [memory] and [none]; any other string behaves as
    [none] in every method. *)
Inductive cache_type := TJson | TSqlite | TMemory | TNone.

Inductive category := CSearch | CDetail.

(** [category === 'search' ? this.searchCache : this.detailCache]: every
    category string other than ['search'] selects the detail map, so two
    constructors cover all call sites. *)

(** [{ value, expire }] *)
Record item := Item { value : jsval; expire : Z }.

Record CacheManager := Cm {
  type : cache_type;
  searchCache : gmap string item;
  detailCache : gmap string item;
  (* contents of cache_search.json / cache_detail.json *)
  searchFile : option (gmap string item);
  detailFile : option (gmap string item)
}.

Definition store (cm : CacheManager) (c : category) : gmap string item :=
  match c with CSearch => searchCache cm | CDetail => detailCache cm end.

(** An [item] seen as a JS object, which is what the [memory] branch of
    [get] hands to its caller. *)
Definition item_obj (it : item) : jsval :=
  JObj [("value", value it); ("expire", JNum (expire it))].

(** [get(category, key)], lines 79-88.  [null] is the miss. *)
Definition get (cm : CacheManager) (c : category) (key : string) (now : Z)
  : jsval :=
  match type cm with
  | TMemory =>
      match store cm c !! key with
      | Some it => item_obj it
      | None => JUndefined
      end
  | TJson =>
      match store cm c !! key with
      | Some data => if expire data >? now then value data else JNull
      | None => JNull
      end
  | _ => JNull
  end.

(** [saveDisk()], lines 103-108. *)
Definition saveDisk (cm : CacheManager) : CacheManager :=
  match type cm with
  | TJson =>
      {| type := type cm;
         searchCache := searchCache cm; detailCache := detailCache cm;
         searchFile := Some (searchCache cm);
         detailFile := Some (detailCache cm) |}
  | _ => cm
  end.

(** The one key under which [obj[key] = item] (lines 94 and 96) does not
    add an entry to an object literal: it replaces the prototype, after
    which the properties of [item] are read through every absent key. *)
Definition proto_key : string := "__proto__".

Definition assign (cm : CacheManager) (c : category) (key : string) (it : item)
  : CacheManager :=
  match c with
  | CSearch =>
      {| type := type cm;
         searchCache := <[key := it]> (searchCache cm);
         detailCache := detailCache cm;
         searchFile := searchFile cm; detailFile := detailFile cm |}
  | CDetail =>
      {| type := type cm;
         searchCache := searchCache cm;
         detailCache := <[key := it]> (detailCache cm);
         searchFile := searchFile cm; detailFile := detailFile cm |}
  end.

(** [set(category, key, value, ttlSeconds)], lines 90-101. *)
Definition set (cm : CacheManager) (c : category) (key : string) (v : jsval)
    (ttlSeconds : Z) (now : Z) : CacheManager :=
  let expire := now + ttlSeconds * 1000 in
  let it := Item v expire in
  match type cm with
  | TMemory => assign cm c key it
  | TJson => saveDisk (assign cm c key it)
  | _ => cm
  end.

(** [new CacheManager(type)] with no cache files on disk. *)
Definition new (t : cache_type) : CacheManager :=
  {| type := t; searchCache := ∅; detailCache := ∅;
     searchFile := None; detailFile := None |}.

(** [new CacheManager(type)] when the two cache files hold [searchDoc]
    and [detailDoc] ([None]: the file is missing or does not parse);
    only the [json] backend reads them (lines 66-77). *)
Definition init (t : cache_type)
    (searchDoc detailDoc : option (gmap string item)) : CacheManager :=
  match t with
  | TJson =>
      {| type := t;
         searchCache := default ∅ searchDoc;
         detailCache := default ∅ detailDoc;
         searchFile := searchDoc; detailFile := detailDoc |}
  | _ =>
      {| type := t; searchCache := ∅; detailCache := ∅;
         searchFile := searchDoc; detailFile := detailDoc |}
  end.

Definition stores (t : cache_type) : bool :=
  match t with TJson | TMemory => true | _ => false end.

End Cache.

(** ** Sites, upstream calls and responses *)

Module Site.
(** One element of [getDB().sites]. *)
Record site := Site { key : string; name : string; api : string }.
End Site.

(** What an awaited [axios.get] settles to: it either throws (timeout,
    transport error, status outside 2xx) or yields [response.data]. *)
Inductive axios_result :=
| AxiosError
| AxiosOk (data : jsval).

(** [res.status(s).json(body)]; [res.json(body)] leaves the status at 200. *)
Record http := Http { status : Z; body : jsval }.

(** An async handler with one [await axios.get(...)]: it answers at once,
    or it has issued the upstream request and is suspended on it. *)
Inductive started (P : Type) :=
| Answer (r : http)
| AwaitAxios (pending : P).
Arguments Answer {P} r.
Arguments AwaitAxios {P} pending.

Definition err (msg : string) : jsval := JObj [("error", JStr msg)].

(** ** Search *)

Module Search.
Import Cache.

(** [`${site.key}_${keyword}`] and [`${siteKey}_${keyword}`] *)
Definition cacheKey (siteKey keyword : string) : string :=
  siteKey ++ "_" ++ keyword.

(** [{ ...item, site_key: site.key, site_name: site.name }], lines 235-239 *)
Definition decorate (s : Site.site) (item : jsval) : jsval :=
  JObj (assoc_set "site_name" (JStr (Site.name s))
         (assoc_set "site_key" (JStr (Site.key s)) (spread item))).

(** The mapping callback of the streaming path, lines 254-266. *)
Definition map_item (s : Site.site) (item : jsval) : option jsval :=
  vod_id ← get_prop item "vod_id";
  vod_name ← get_prop item "vod_name";
  vod_pic ← get_prop item "vod_pic";
  vod_remarks ← get_prop item "vod_remarks";
  vod_year ← get_prop item "vod_year";
  type_name ← get_prop item "type_name";
  vod_content ← get_prop item "vod_content";
  vod_play_from ← get_prop item "vod_play_from";
  vod_play_url ← get_prop item "vod_play_url";
  Some (JObj [("vod_id", vod_id); ("vod_name", vod_name);
              ("vod_pic", vod_pic); ("vod_remarks", vod_remarks);
              ("vod_year", vod_year); ("type_name", type_name);
              ("vod_content", vod_content);
              ("vod_play_from", vod_play_from);
              ("vod_play_url", vod_play_url);
              ("site_key", JStr (Site.key s));
              ("site_name", JStr (Site.name s))]).

(** The mapping callback of the POST path, lines 315-322. *)
Definition map_item_post (item : jsval) : option jsval :=
  vod_id ← get_prop item "vod_id";
  vod_name ← get_prop item "vod_name";
  vod_pic ← get_prop item "vod_pic";
  vod_remarks ← get_prop item "vod_remarks";
  vod_year ← get_prop item "vod_year";
  type_name ← get_prop item "type_name";
  Some (JObj [("vod_id", vod_id); ("vod_name", vod_name);
              ("vod_pic", vod_pic); ("vod_remarks", vod_remarks);
              ("vod_year", vod_year); ("type_name", type_name)]).

(** [data.list ? data.list.map(f) : []].  [None] is a TypeError: [data] is
    [null]/[undefined], [data.list] is truthy but has no [map] method, or
    [f] throws on an element. *)
Definition map_list (f : jsval -> option jsval) (data : jsval)
  : option (list jsval) :=
  l ← get_prop data "list";
  if truthy l then
    match l with
    | JArr xs => map_throw f xs
    | _ => None
    end
  else Some [].

(** Frames written on the response by [res.write]. *)
Inductive sse :=
| Data (items : list jsval)   (* data: <JSON.stringify(items)> *)
| Done.                       (* event: done *)

(** [if (items.length > 0) res.write(...)] *)
Definition emit (items : list jsval) : list sse :=
  match items with
  | [] => []
  | _ => [Data items]
  end.

(** State of one element of [searchPromises]. *)
Inductive branch :=
| Awaiting (s : Site.site)          (* suspended on [axios.get(site.api, ...)] *)
| Fulfilled (items : list jsval)
| Thrown.                      (* the promise rejected *)

(** The callback of [sites.map], up to its [await] (lines 229-251). *)
Definition branch_start (cm : CacheManager) (keyword : string) (now : Z)
    (s : Site.site) : branch * list sse :=
  let cached := get cm CSearch (cacheKey (Site.key s) keyword) now in
  let cached_list :=
    if truthy cached then default JUndefined (get_prop cached "list")
    else JUndefined in
  if truthy cached && truthy cached_list then
    match cached_list with
    | JArr xs =>
        let items := map (decorate s) xs in
        (Fulfilled items, emit items)
    | _ => (Thrown, [])
    end
  else (Awaiting s, []).

(** The rest of the callback, run when the upstream call of [s] has
    settled to [r] (lines 253-279). *)
Definition branch_resume (cm : CacheManager) (keyword : string) (now : Z)
    (s : Site.site) (r : axios_result) : CacheManager * branch * list sse :=
  match r with
  | AxiosError => (cm, Fulfilled [], [])
  | AxiosOk data =>
      match map_list (map_item s) data with
      | None => (cm, Fulfilled [], [])
      | Some list =>
          let cm' := set cm CSearch (cacheKey (Site.key s) keyword)
                         (JObj [("list", JArr list)]) 600 now in
          (cm', Fulfilled list, emit list)
      end
  end.

(** The request in flight: the cache, one state per site, the frames
    written so far, and whether [res.end()] was called. *)
Record run := Run {
  cache : CacheManager;
  branches : list branch;
  out : list sse;
  ended : bool
}.

(** [sites.map(async site => ...)]: every callback runs up to its
    [await] before the next one starts. *)
Definition start_all (cm : CacheManager) (keyword : string) (now : Z)
    (sites : list Site.site) : list branch * list sse :=
  let rs := map (branch_start cm keyword now) sites in
  (map fst rs, concat (map snd rs)).

Definition is_fulfilled (b : branch) : bool :=
  match b with Fulfilled _ => true | _ => false end.

(** The sites whose upstream request was issued and is outstanding. *)
Definition awaited (bs : list branch) : list Site.site :=
  omap (fun b => match b with Awaiting s => Some s | _ => None end) bs.

(** Settle branch [i] with [r] at time [now]. *)
Definition settle (keyword : string) (i : nat) (r : axios_result) (now : Z)
    (st : run) : run :=
  match branches st !! i with
  | Some (Awaiting s) =>
      let '(cm', b, frames) := branch_resume (cache st) keyword now s r in
      {| cache := cm'; branches := <[i := b]> (branches st);
         out := out st ++ frames; ended := ended st |}
  | _ => st
  end.

(** [await Promise.all(searchPromises); res.write('event: done...');
    res.end()], lines 283-287.  [Promise.all] resumes the handler only
    when every promise is fulfilled; if one rejects the [await] throws
    and the two lines after it are never reached. *)
Definition finish (st : run) : run :=
  {| cache := cache st; branches := branches st;
     out := out st ++ [Done]; ended := true |}.

Inductive step (keyword : string) : run -> run -> Prop :=
| step_settle st i s r now :
    branches st !! i = Some (Awaiting s) ->
    step keyword st (settle keyword i r now st)
| step_finish st :
    forallb is_fulfilled (branches st) = true ->
    ended st = false ->
    step keyword st (finish st).

Inductive steps (keyword : string) : run -> run -> Prop :=
| steps_refl st : steps keyword st st
| steps_step st1 st2 st3 :
    steps keyword st1 st2 -> step keyword st2 st3 -> steps keyword st1 st3.

(** What [app.get('/api/search')] has done when it first yields to the
    event loop. *)
Inductive entered :=
| Replied (r : http)
| Streaming (st : run).

(** Lines 207-281.  [wd] and [stream] are [req.query.wd] and
    [req.query.stream] ([None] when the parameter is absent). *)
Definition get_search (cm : CacheManager) (sites : list Site.site)
    (wd stream : option string) (now : Z) : entered :=
  let keyword := default "" wd in
  let stream := bool_decide (stream = Some "true") in
  if String.eqb keyword "" then
    Replied (Http 400 (err "Missing keyword"))
  else if negb stream then
    Replied (Http 200 (err "Use stream=true for GET requests"))
  else
    let '(bs, frames) := start_all cm keyword now sites in
    Streaming {| cache := cm; branches := bs; out := frames; ended := false |}.

(** A schedule of the event loop: which outstanding branch settles next,
    to what, and when.  Entries naming a branch that is not outstanding
    are skipped. *)
Fixpoint run_schedule (keyword : string)
    (sched : list (nat * axios_result * Z)) (st : run) : run :=
  match sched with
  | [] => st
  | (i, r, now) :: sched' => run_schedule keyword sched' (settle keyword i r now st)
  end.

Definition try_finish (st : run) : run :=
  if forallb is_fulfilled (branches st) && negb (ended st)
  then finish st else st.

(** Lines 291-331. *)
Definition post_search_start (cm : CacheManager) (sites : list Site.site)
    (keyword siteKey : string) (now : Z) : started Site.site :=
  match find (fun s => String.eqb (Site.key s) siteKey) sites with
  | None => Answer (Http 404 (err "Site not found"))
  | Some s =>
      let cached := get cm CSearch (cacheKey siteKey keyword) now in
      if truthy cached then Answer (Http 200 cached)
      else AwaitAxios s
  end.

Definition post_search_resume (cm : CacheManager) (keyword siteKey : string)
    (now : Z) (r : axios_result) : CacheManager * http :=
  match r with
  | AxiosError => (cm, Http 500 (err "Search failed"))
  | AxiosOk data =>
      match map_list map_item_post data with
      | None => (cm, Http 500 (err "Search failed"))
      | Some list =>
          let result := JObj [("list", JArr list)] in
          (set cm CSearch (cacheKey siteKey keyword) result 600 now,
           Http 200 result)
      end
  end.

End Search.

(** ** Detail *)

Module Detail.
Import Cache.

(** [`${siteKey}_detail_${id}`] *)
Definition cacheKey (siteKey id : string) : string :=
  siteKey ++ "_detail_" ++ id.

Section first_of_list.

(** [v > 0] for a [length] property that is not a number: the string and
    object coercions of JavaScript are left open, the results below hold
    for each of them. *)
Variable coerce_gt0 : jsval -> bool.

Definition gt0 (v : jsval) : bool :=
  match v with
  | JNum n => 0 <? n
  | JBool b => b
  | JUndefined | JNull => false
  | _ => coerce_gt0 v
  end.

(** [data.list && data.list.length > 0 ? data.list[0] : <else branch>]:
    [Some None] is the else branch, [None] a TypeError on [data.list]. *)
Definition first_of_list (data : jsval) : option (option jsval) :=
  l ← get_prop data "list";
  if truthy l then
    match l with
    | JArr (x :: _) => Some (Some x)
    | JArr [] => Some None
    | JStr (String c _) => Some (Some (JStr (String c EmptyString)))
    | JObj fs =>
        if gt0 (default JUndefined (assoc "length" fs))
        then Some (Some (default JUndefined (assoc "0" fs)))
        else Some None
    | _ => Some None
    end
  else Some None.

(** The two endpoints differ in the shape of their answers only. *)
Inductive method := GET | POST.

Definition wrap (m : method) (detail : jsval) : jsval :=
  match m with
  | GET => JObj [("list", JArr [detail])]
  | POST => detail
  end.

Definition failure (m : method) (msg : string) : jsval :=
  match m with
  | GET => JObj [("error", JStr msg); ("list", JArr [])]
  | POST => err msg
  end.

(** Lines 334-348 and 373-385. *)
Definition detail_start (m : method) (cm : CacheManager)
    (sites : list Site.site) (id siteKey : string) (now : Z)
  : started Site.site :=
  match find (fun s => String.eqb (Site.key s) siteKey) sites with
  | None => Answer (Http 404 (err "Site not found"))
  | Some s =>
      let cached := get cm CDetail (cacheKey siteKey id) now in
      if truthy cached then Answer (Http 200 (wrap m cached))
      else AwaitAxios s
  end.

(** Lines 350-369 and 387-405. *)
Definition detail_resume (m : method) (cm : CacheManager)
    (id siteKey : string) (now : Z) (r : axios_result)
  : CacheManager * http :=
  match r with
  | AxiosError => (cm, Http 500 (failure m "Detail fetch failed"))
  | AxiosOk data =>
      match first_of_list data with
      | None => (cm, Http 500 (failure m "Detail fetch failed"))
      | Some (Some detail) =>
          (set cm CDetail (cacheKey siteKey id) detail 3600 now,
           Http 200 (wrap m detail))
      | Some None => (cm, Http 404 (failure m "Not found"))
      end
  end.

(** One whole lookup: the upstream call, if one is made, settles to
    [upstream] at time [later]. *)
Definition detail (m : method) (cm : CacheManager) (sites : list Site.site)
    (id siteKey : string) (now : Z) (upstream : axios_result) (later : Z)
  : CacheManager * http * bool :=
  match detail_start m cm sites id siteKey now with
  | Answer r => (cm, r, false)
  | AwaitAxios _ =>
      let '(cm', r) := detail_resume m cm id siteKey later upstream in
      (cm', r, true)
  end.

End first_of_list.

End Detail.

(** ** Paths *)

Module Path.

(** A normalized absolute path is the list of its segments. *)
Definition path := list string.

(** [s.split('/')] *)
Fixpoint split_slash (s : string) : list string :=
  match s with
  | EmptyString => [EmptyString]
  | String c s' =>
      match split_slash s' with
      | seg :: segs =>
          if Ascii.eqb c "/" then EmptyString :: seg :: segs
          else String c seg :: segs
      | [] => [String c EmptyString]
      end
  end.

(** One segment pushed on the reversed stack of segments kept so far:
    empty and [.] segments are dropped, [..] removes the last one (and is
    dropped at the filesystem root). *)
Definition push (stack : list string) (seg : string) : list string :=
  if String.eqb seg "" || String.eqb seg "." then stack
  else if String.eqb seg ".." then tail stack
  else seg :: stack.

Definition normalize (segs : list string) : path :=
  rev (fold_left push segs []).

(** [path.join(base, ...parts)] for an absolute normalized [base]. *)
Definition join (base : path) (parts : list string) : path :=
  normalize (base ++ concat (map split_slash parts))%list.

(** [path.dirname] of a normalized absolute path. *)
Definition dirname (p : path) : path := removelast p.

Fixpoint is_prefix (p q : path) : bool :=
  match p, q with
  | [], _ => true
  | a :: p', b :: q' => String.eqb a b && is_prefix p' q'
  | _ :: _, [] => false
  end.

(** A segment that [normalize] keeps as it is. *)
Definition plain (seg : string) : bool :=
  negb (String.eqb seg "" || String.eqb seg "." || String.eqb seg "..").

End Path.

(** ** The eviction pass *)

Module Sweep.
Import Path.

(** The cache directory as the walk finds it. *)
Inductive node :=
| File (size : Z) (mtime : Z)
| Dir (items : list (string * node)).

(** [{ path, size, time }] *)
Record file := MkFile { fpath : path; fsize : Z; time : Z }.

Definition MAX_CACHE_SIZE_MB : Z := 1024.
Definition CLEAN_TRIGGER_THRESHOLD : Z := 50.
Definition maxBytes : Z := MAX_CACHE_SIZE_MB * 1024 * 1024.

(** The body of [items.forEach] for the entry at [fullPath], and through
    it [traverseDir(fullPath)] for a directory (lines 479-492).  The pair
    is [(totalSize, files)]. *)
Fixpoint visit (fullPath : path) (n : node) (acc : Z * list file)
  : Z * list file :=
  match n with
  | File size mtime =>
      (fst acc + size, (snd acc ++ [MkFile fullPath size mtime])%list)
  | Dir items =>
      (fix forEach (items : list (string * node)) (acc : Z * list file) :=
         match items with
         | [] => acc
         | (item, child) :: rest =>
             forEach rest (visit (fullPath ++ [item])%list child acc)
         end) items acc
  end.

(** The files at and below a node, in the order of the walk. *)
Fixpoint files_below (fullPath : path) (n : node) : list file :=
  match n with
  | File size mtime => [MkFile fullPath size mtime]
  | Dir items =>
      (fix each (items : list (string * node)) : list file :=
         match items with
         | [] => []
         | (item, child) :: rest =>
             (files_below (fullPath ++ [item])%list child ++ each rest)%list
         end) items
  end.

(** [traverseDir(IMAGE_CACHE_DIR)]: [None] when [readdirSync] throws
    because the root is not a directory. *)
Definition traverseDir (dir : path) (root : option node)
  : option (Z * list file) :=
  match root with
  | None => Some (0, [])
  | Some (Dir items) => Some (visit dir (Dir items) (0, []))
  | Some (File _ _) => None
  end.

(** [files.sort((a, b) => a.time - b.time)]; the sort of the runtime is
    stable, so the result is the stable sorted arrangement. *)
Fixpoint insert (x : file) (l : list file) : list file :=
  match l with
  | [] => [x]
  | y :: l' => if time x <=? time y then x :: y :: l' else y :: insert x l'
  end.

Definition sort (files : list file) : list file := foldr insert [] files.

(** What became of one file of the sorted array. *)
Inductive fate := Deleted | DeleteFailed | Untouched.

(** Numbers are doubles.  A sum of file sizes is an integer and is exact
    below 2^53; [maxBytes * 0.9] and [totalSize - maxBytes * 0.9] are not
    integers and are rounded.  They are kept here as integers in units of
    2^-53 byte. *)

(** Rounding to the nearest number with 53 significant bits, ties to the
    even one (the rounding of every arithmetic operation on doubles, far
    from the overflow and underflow ranges). *)
Definition round53 (n : Z) : Z :=
  let a := Z.abs n in
  let s := Z.log2 a + 1 - 53 in
  if s <=? 0 then n
  else
    let q := a / 2 ^ s in
    let r := a mod 2 ^ s in
    let half := 2 ^ (s - 1) in
    let q' := if r <? half then q
              else if half <? r then q + 1
              else if Z.even q then q else q + 1 in
    Z.sgn n * (q' * 2 ^ s).

(** The literal [0.9] is the double [8106479329266893 * 2^-53]. *)
Definition point9 : Z := 8106479329266893.

(** [totalSize - (maxBytes * 0.9)], line 504, in units of 2^-53 byte. *)
Definition targetDelete (totalSize : Z) : Z :=
  round53 (totalSize * 2 ^ 53 - round53 (maxBytes * point9)).

(** [deletedSize >= targetDelete], line 507. *)
Definition reached (totalSize deletedSize : Z) : bool :=
  targetDelete totalSize <=? deletedSize * 2 ^ 53.

(** The [for ... of] loop, lines 506-512.  [unlink_ok] tells for which
    paths [fs.unlinkSync] succeeds.  After [break] the remaining files
    are untouched. *)
Fixpoint delete_loop (unlink_ok : path -> bool) (totalSize : Z)
    (files : list file) (deletedSize : Z) : list (file * fate) * Z :=
  match files with
  | [] => ([], deletedSize)
  | f :: rest =>
      if reached totalSize deletedSize then
        (map (fun g => (g, Untouched)) (f :: rest), deletedSize)
      else if unlink_ok (fpath f) then
        let '(fates, d) :=
          delete_loop unlink_ok totalSize rest (deletedSize + fsize f) in
        ((f, Deleted) :: fates, d)
      else
        let '(fates, d) := delete_loop unlink_ok totalSize rest deletedSize in
        ((f, DeleteFailed) :: fates, d)
  end.

(** The callback given to [setTimeout], lines 474-517: the files of the
    sorted array with their fate, and [deletedSize].  When the total is
    within the budget, or the walk throws, nothing is deleted. *)
Definition sweep (unlink_ok : path -> bool) (dir : path) (root : option node)
  : list (file * fate) * Z :=
  match traverseDir dir root with
  | None => ([], 0)
  | Some (totalSize, files) =>
      if totalSize >? maxBytes then
        delete_loop unlink_ok totalSize (sort files) 0
      else (map (fun g => (g, Untouched)) files, 0)
  end.

Definition with_fate (ft : fate) (r : list (file * fate)) : list file :=
  map fst (List.filter (fun p => match snd p, ft with
                              | Deleted, Deleted
                              | DeleteFailed, DeleteFailed
                              | Untouched, Untouched => true
                              | _, _ => false
                              end) r).

Definition deleted (r : list (file * fate)) : list file := with_fate Deleted r.
Definition untouched (r : list (file * fate)) : list file :=
  with_fate Untouched r.

(** The files still on disk after the pass. *)
Definition remaining (r : list (file * fate)) : list file :=
  map fst (List.filter (fun p => match snd p with
                              | Deleted => false | _ => true end) r).

Definition total_size (files : list file) : Z :=
  fold_right (fun f acc => fsize f + acc) 0 files.

(** The files with modification time [t], in the order of the list. *)
Definition at_time (t : Z) (files : list file) : list file :=
  List.filter (fun f => time f =? t) files.

(** [a] is at least as old as [b]. *)
Definition older (a b : file) : Prop := time a <= time b.

(** [a] is strictly older than [b]. *)
Definition strictly_older (a b : file) : Prop := time a < time b.

(** [cleanCacheIfNeeded()] up to [setTimeout], lines 467-473: the new
    value of [newItemCount] and whether a pass was scheduled. *)
Definition cleanCacheIfNeeded (newItemCount : Z) : Z * bool :=
  let n := newItemCount + 1 in
  if n <? CLEAN_TRIGGER_THRESHOLD then (n, false) else (0, true).

End Sweep.

(** ** The image proxy *)

Module Image.
Import Path.

(** What [fs.statSync] reports for a path. *)
Record stat := Stat { isDirectory : bool; size : Z; mtime : Z }.

(** The calls into [fs] (and [res.sendFile], which reads the file). *)
Inductive fs_op :=
| ExistsSync (p : path)
| StatSync (p : path)
| UtimesSync (p : path)
| MkdirSync (p : path)
| CreateWriteStream (p : path)
| UnlinkSync (p : path)
| ReadFile (p : path).

(** The disk, the module-level counter [newItemCount], the number of
    eviction passes handed to [setTimeout], and the calls made so far. *)
Record world := World {
  files : gmap path stat;
  newItemCount : Z;
  scheduled : nat;
  log : list fs_op
}.

Inductive reply :=
| Send (code : Z) (text : string)   (* res.status(code).send(text) *)
| SendFile (p : path)               (* res.sendFile(p) *)
| Unhandled.                        (* an exception escaped the handler *)

Definition allowSizes : list string :=
  ["w300"; "w342"; "w500"; "w780"; "w1280"; "original"].

(** The character class [[a-zA-Z0-9_\-\.]]. *)
Definition allowed_char (c : ascii) : bool :=
  let n := nat_of_ascii c in
  ((97 <=? n) && (n <=? 122) || (65 <=? n) && (n <=? 90)
   || (48 <=? n) && (n <=? 57)
   || Ascii.eqb c "_" || Ascii.eqb c "-" || Ascii.eqb c ".")%nat.

(** [/^[a-zA-Z0-9_\-\.]+$/.test(filename)] *)
Definition filename_ok (filename : string) : bool :=
  negb (String.eqb filename "")
  && forallb allowed_char (list_ascii_of_string filename).

(** The guard of line 414. *)
Definition invalid (size filename : string) : bool :=
  negb (existsb (String.eqb size) allowSizes) || negb (filename_ok filename).

Definition logged (op : fs_op) (w : world) : world :=
  {| files := files w; newItemCount := newItemCount w;
     scheduled := scheduled w; log := (log w ++ [op])%list |}.

Definition with_files (fs : gmap path stat) (w : world) : world :=
  {| files := fs; newItemCount := newItemCount w;
     scheduled := scheduled w; log := log w |}.

Section handler.

(** The directory of [server.js], and the size the filesystem reports
    for a directory it has just created. *)
Variable __dirname : path.
Variable dirSize : Z.

Definition IMAGE_CACHE_DIR : path := join __dirname ["public/cache/images"].

Definition localPath (size filename : string) : path :=
  join IMAGE_CACHE_DIR [size; filename].

(** The prefixes of [p], shortest first, [p] itself last. *)
Definition ancestors (p : path) : list path :=
  map (fun n => firstn n p) (seq 1 (length p)).

(** [fs.mkdirSync(dir, { recursive: true })]: [None] when a prefix of
    [dir] exists and is not a directory. *)
Definition mkdirSync (now : Z) (dir : path) (fs : gmap path stat)
  : option (gmap path stat) :=
  fold_left (fun acc q =>
               fs' ← acc;
               match fs' !! q with
               | None => Some (<[q := Stat true dirSize now]> fs')
               | Some st => if isDirectory st then Some fs' else None
               end)
            (ancestors dir) (Some fs).

Inductive started :=
| Answered (r : reply) (w : world)
| Fetching (localPath : path) (w : world).   (* suspended on [axios] *)

(** Lines 409-443, up to [await axios(...)]. *)
Definition image_start (w : world) (now : Z) (size filename : string)
  : started :=
  if invalid size filename then Answered (Send 400 "Invalid parameters") w
  else
    let localPath := localPath size filename in
    let localDir := dirname localPath in
    let w := logged (ExistsSync localPath) w in
    let hit :=
      match files w !! localPath with
      | Some st => Some (0 <? Image.size st)
      | None => None
      end in
    let w := match hit with
             | Some _ => logged (StatSync localPath) w
             | None => w
             end in
    if default false hit then
      let w := logged (UtimesSync localPath) w in
      let w := with_files
                 (alter (fun st => Stat (isDirectory st) (Image.size st) now)
                        localPath (files w)) w in
      Answered (SendFile localPath) (logged (ReadFile localPath) w)
    else
      let w := logged (ExistsSync localDir) w in
      match files w !! localDir with
      | Some _ => Fetching localPath w
      | None =>
          let w := logged (MkdirSync localDir) w in
          match mkdirSync now localDir (files w) with
          | Some fs => Fetching localPath (with_files fs w)
          | None => Answered Unhandled w
          end
      end.

(** How the download went: [axios] threw; or the response stream was
    piped into the file and the pipeline failed with [written] bytes on
    disk ([None]: the file could not even be opened); or the pipeline
    completed with [bytes] bytes. *)
Inductive download :=
| FetchFailed
| WriteFailed (written : option Z)
| Complete (bytes : Z).

(** [fs.createWriteStream(p)] followed by the bytes that reached the
    disk; a directory at [p] cannot be opened for writing. *)
Definition write_file (now : Z) (p : path) (bytes : Z) (w : world) : world :=
  let w := logged (CreateWriteStream p) w in
  match files w !! p with
  | Some st =>
      if isDirectory st then w
      else with_files (<[p := Stat false bytes now]> (files w)) w
  | None => with_files (<[p := Stat false bytes now]> (files w)) w
  end.

(** The [catch] block, lines 455-459. *)
Definition on_error (localPath : path) (w : world) : reply * world :=
  let w := logged (ExistsSync localPath) w in
  match files w !! localPath with
  | Some st =>
      let w := logged (UnlinkSync localPath) w in
      if isDirectory st then (Unhandled, w)
      else (Send 404 "Image not found",
            with_files (delete localPath (files w)) w)
  | None => (Send 404 "Image not found", w)
  end.

(** The success path after [await pipeline(...)], lines 450-454. *)
Definition on_complete (localPath : path) (w : world) : reply * world :=
  let '(n, sched) := Sweep.cleanCacheIfNeeded (newItemCount w) in
  let w := {| files := files w; newItemCount := n;
              scheduled := if sched then S (scheduled w) else scheduled w;
              log := log w |} in
  (SendFile localPath, logged (ReadFile localPath) w).

(** Lines 445-459: the handler from the moment the download has
    settled, in the world [w] of that moment. *)
Definition image_resume (w : world) (now : Z) (localPath : path)
    (d : download) : reply * world :=
  match d with
  | FetchFailed => on_error localPath w
  | WriteFailed None => on_error localPath (logged (CreateWriteStream localPath) w)
  | WriteFailed (Some n) => on_error localPath (write_file now localPath n w)
  | Complete n =>
      match files w !! localPath with
      | Some st =>
          if isDirectory st
          then on_error localPath (logged (CreateWriteStream localPath) w)
          else on_complete localPath (write_file now localPath n w)
      | None => on_complete localPath (write_file now localPath n w)
      end
  end.

End handler.

(** The download did not complete. *)
Definition failed (d : download) : bool :=
  match d with Complete _ => false | _ => true end.

End Image.

(** ** Observations on a streaming search *)

Module SearchObs.
Import Cache Search.



(** The frames a branch has written by the time it is in state [b]. *)
Definition contribution (b : branch) : list sse :=
  match b with
  | Fulfilled items => emit items
  | _ => []
  end.

(** The shape every search handler stores: the [list] property of a
    cached value, when truthy, is an array. *)
Definition list_ok (v : jsval) : bool :=
  let l := default JUndefined (get_prop v "list") in
  negb (truthy v && truthy l) || is_array l.

Definition store_ok (cm : CacheManager) : Prop :=
  forall key it, searchCache cm !! key = Some it -> list_ok (value it) = true.



(** The branches a request has started; each one has looked up the
    cache and, unless it was answered from it, called upstream. *)
Definition fanout (e : entered) : list branch :=
  match e with
  | Replied _ => []
  | Streaming st => branches st
  end.

(** 4xx *)
Definition client_error (r : http) : Prop := 400 <= status r < 500.

End SearchObs.

(** ** A sample deployment

    Two sites, one upstream record, and a search cache seeded by a
    [set] at time 0, as in the scenarios of the specification. *)

Module Scenario.
Import Cache.

Definition siteA : Site.site := Site.Site "siteA" "Site A" "https://a.example/api".
Definition siteB : Site.site := Site.Site "siteB" "Site B" "https://b.example/api".

Definition movie : jsval :=
  JObj [("vod_id", JNum 1); ("vod_name", JStr "X");
        ("vod_play_url", JStr "ep1$https://a.example/1.m3u8")].

Definition upstream : jsval := JObj [("list", JArr [movie])].
Definition upstream_empty : jsval := JObj [("list", JArr [])].

(** [cacheManager.set('search', 'siteA_batman', { list: [movie] }, 600)]
    at time 0 on a fresh manager of type [t]. *)
Definition seeded (t : cache_type) : CacheManager :=
  set (new t) CSearch "siteA_batman" upstream 600 0.

(** A cache directory of 2248 MiB: two files of 100 MiB with the same
    modification time and a newer file of 2 GiB that cannot be unlinked. *)
Definition big_dir : Sweep.node :=
  Sweep.Dir [("a.jpg", Sweep.File 104857600 1);
             ("b.jpg", Sweep.File 104857600 1);
             ("c.jpg", Sweep.File 2147483648 2)].

Definition c_locked (p : Path.path) : bool :=
  negb (bool_decide (p = ["cache"; "c.jpg"])).

End Scenario.

(** ** The TMDB proxy *)

Module Proxy.
Import Cache.

Definition TMDB_CACHE_TTL : Z := 3600 * 10.

(** [req.query] with string values: an object, so its keys are distinct. *)
Definition query := list (string * string).

(** [q[k]] *)
Fixpoint lookup (k : string) (q : query) : option string :=
  match q with
  | [] => None
  | (k', v) :: q' => if String.eqb k k' then Some v else lookup k q'
  end.

(** [const { path: tmdbPath, ...params } = req.query] *)
Definition tmdbPath (q : query) : option string := lookup "path" q.
Definition params (q : query) : query :=
  List.filter (fun e => negb (String.eqb (fst e) "path")) q.

(** [keys.sort()]: the default comparison orders strings by their code
    units; [String.leb] is that order on the bytes of the string. *)
Fixpoint insert (k : string) (l : list string) : list string :=
  match l with
  | [] => [k]
  | k' :: l' => if String.leb k k' then k :: k' :: l' else k' :: insert k l'
  end.

Definition sort (l : list string) : list string := foldr insert [] l.

(** [parts.join('&')] *)
Fixpoint join_amp (parts : list string) : string :=
  match parts with
  | [] => ""
  | [x] => x
  | x :: rest => x ++ "&" ++ join_amp rest
  end.

(** [Object.keys(params).sort().map(k => `${k}=${params[k]}`).join('&')],
    line 145. *)
Definition sortedParams (ps : query) : string :=
  join_amp (map (fun k => k ++ "=" ++ default "undefined" (lookup k ps))
                (sort (map fst ps))).

(** [`tmdb_proxy_${tmdbPath}_${sortedParams}`] *)
Definition cacheKey (path : string) (ps : query) : string :=
  "tmdb_proxy_" ++ path ++ "_" ++ sortedParams ps.

(** What the awaited [axios.get] settles to; a failure may carry the
    status of the upstream response ([error.response?.status]). *)
Inductive proxy_result :=
| ProxyFailed (upstream_status : option Z)
| ProxyOk (data : jsval).

(** Lines 136-152, up to the [await]; [apiKey] is
    [process.env.TMDB_API_KEY].  The pending request remembers its cache
    key. *)
Definition proxy_start (cm : CacheManager) (apiKey : option string)
    (q : query) (now : Z) : started string :=
  match tmdbPath q with
  | None => Answer (Http 400 (err "Missing path"))
  | Some path =>
      if String.eqb path "" then Answer (Http 400 (err "Missing path"))
      else if String.eqb (default "" apiKey) "" then
        Answer (Http 500 (err "API Key not configured"))
      else
        let cacheKey := cacheKey path (params q) in
        let cached := get cm CDetail cacheKey now in
        if truthy cached then Answer (Http 200 cached)
        else AwaitAxios cacheKey
  end.

(** Lines 154-171. *)
Definition proxy_resume (cm : CacheManager) (cacheKey : string) (now : Z)
    (r : proxy_result) : CacheManager * http :=
  match r with
  | ProxyOk data =>
      (set cm CDetail cacheKey data TMDB_CACHE_TTL now, Http 200 data)
  | ProxyFailed st =>
      let code := match st with
                  | Some c => if c =? 0 then 500 else c
                  | None => 500
                  end in
      (cm, Http code (err "Proxy request failed"))
  end.

End Proxy.

(** ** The site directory *)

Module Directory.

Definition REMOTE_DB_CACHE_TTL : Z := 5 * 60 * 1000.

(** The module-level variables [remoteDbCache] and [remoteDbLastFetch]. *)
Record remote := Remote {
  remoteDbCache : option jsval;
  remoteDbLastFetch : Z
}.

Definition initial : remote := Remote None 0.

(** [getDB()], lines 553-556; [local] is the parsed content of
    [db.json]. *)
Definition getDB (st : remote) (local : jsval) : jsval :=
  match remoteDbCache st with
  | Some d => d
  | None => local
  end.

(** The handler of [/api/sites] either answers, or is suspended on
    [axios.get(REMOTE_DB_URL)] with the value of [now] it has read. *)
Inductive sites_started :=
| SitesAnswer (sitesData : jsval)
| SitesAwait (now : Z).

(** Lines 175-185 and 198-203; [url] is [REMOTE_DB_URL]. *)
Definition sites_start (st : remote) (url : string) (local : jsval) (now : Z)
  : sites_started :=
  if negb (String.eqb url "") then
    match remoteDbCache st with
    | Some d =>
        if now - remoteDbLastFetch st <? REMOTE_DB_CACHE_TTL
        then SitesAnswer d
        else SitesAwait now
    | None => SitesAwait now
    end
  else SitesAnswer local.

(** [response.data && Array.isArray(response.data.sites)] *)
Definition valid_config (data : jsval) : bool :=
  truthy data && is_array (default JUndefined (get_prop data "sites")).

(** Lines 185-203, from the moment the request has settled; [now] is
    the time read before the request was sent. *)
Definition sites_resume (st : remote) (now : Z) (local : jsval)
    (r : axios_result) : remote * jsval :=
  match r with
  | AxiosOk data =>
      if valid_config data then (Remote (Some data) now, data)
      else (st, local)
  | AxiosError => (st, local)
  end.

End Directory.

(** ** Access password *)

Module Auth.

Section auth.

(** [crypto.createHash('sha256').update(s).digest('hex')] *)
Variable sha256 : string -> string.

(** [process.env.ACCESS_PASSWORD || ''] *)
Variable ACCESS_PASSWORD : string.

Definition PASSWORD_HASH : string :=
  if String.eqb ACCESS_PASSWORD "" then "" else sha256 ACCESS_PASSWORD.

(** [/api/auth/check], lines 522-526. *)
Definition requirePassword : bool := negb (String.eqb ACCESS_PASSWORD "").

(** The bodies [/api/auth/verify] answers with (always under status
    200). *)
Inductive verdict :=
| Success                                  (* { success: true } *)
| SuccessToken (token passwordHash : string)
| Failure.                                 (* { success: false } *)

Definition nonempty (o : option string) : option string :=
  match o with
  | Some s => if String.eqb s "" then None else Some s
  | None => None
  end.

(** Lines 529-550; [password] and [passwordHash] are the fields of
    [req.body] ([None] when absent). *)
Definition verify (password passwordHash : option string) : verdict :=
  if String.eqb ACCESS_PASSWORD "" then Success
  else
    let inputHash :=
      match nonempty passwordHash with
      | Some h => Some h
      | None =>
          match nonempty password with
          | Some pw => Some (sha256 pw)
          | None => None
          end
      end in
    match inputHash with
    | None => Failure
    | Some h =>
        if String.eqb h PASSWORD_HASH
        then SuccessToken "session_token_placeholder" PASSWORD_HASH
        else Failure
    end.

End auth.

End Auth.

(** ** Counting the steps of a streaming search *)

Module RunObs.
Import Search.

(** Steps still to come: one per outstanding branch, and the terminal
    frame. *)
Definition pending (st : run) : nat :=
  (length (awaited (branches st)) + (if ended st then 0 else 1))%nat.

Inductive nsteps (keyword : string) : nat -> run -> run -> Prop :=
| nsteps_O st : nsteps keyword 0 st st
| nsteps_S n st1 st2 st3 :
    nsteps keyword n st1 st2 -> step keyword st2 st3 ->
    nsteps keyword (S n) st1 st3.

(** The item names the site it comes from. *)
Definition tagged (s : Site.site) (item : jsval) : Prop :=
  get_prop item "site_key" = Some (JStr (Site.key s))
  /\ get_prop item "site_name" = Some (JStr (Site.name s)).

(** [k] completed downloads in a row, from the counter value [n]: the
    counter afterwards and the number of passes scheduled. *)
Fixpoint downloads (k : nat) (n : Z) : Z * nat :=
  match k with
  | O => (n, O)
  | S k' =>
      let '(n1, s1) := downloads k' n in
      let '(n2, sched) := Sweep.cleanCacheIfNeeded n1 in
      (n2, if sched then S s1 else s1)
  end.

End RunObs.

(** * Properties *)

(** ** The cache abstraction *)

Module CacheFacts.
Import Cache.

Lemma type_assign cm c key it : type (assign cm c key it) = type cm.
Proof. by destruct c. Qed.

Lemma type_set cm c key v ttl now : type (set cm c key v ttl now) = type cm.
Proof.
  unfold set, saveDisk. destruct (type cm) eqn:E; try done.
  - rewrite type_assign, E. by destruct c.
  - by rewrite type_assign.
Qed.

Lemma store_assign cm c key it :
  store (assign cm c key it) c = <[key := it]> (store cm c).
Proof. by destruct c. Qed.

Lemma store_assign_other cm c c' key it :
  c ≠ c' -> store (assign cm c key it) c' = store cm c'.
Proof. by destruct c, c'. Qed.

Lemma store_saveDisk cm c : store (saveDisk cm) c = store cm c.
Proof. unfold saveDisk. by destruct (type cm), c. Qed.

(** A [set] on a storing backend leaves the entry in the map of its
    category, with [expire = now + ttlSeconds * 1000]. *)
Lemma store_set cm c key v ttl now :
  stores (type cm) = true ->
  store (set cm c key v ttl now) c
  = <[key := Item v (now + ttl * 1000)]> (store cm c).
Proof.
  unfold set. destruct (type cm); try done; intros _.
  - by rewrite store_saveDisk, store_assign.
  - by rewrite store_assign.
Qed.

Lemma store_set_other cm c c' key v ttl now :
  c ≠ c' -> store (set cm c key v ttl now) c' = store cm c'.
Proof.
  intros Hc. unfold set. destruct (type cm); try done.
  - by rewrite store_saveDisk, store_assign_other.
  - by rewrite store_assign_other.
Qed.

(** On the other backends [set] does nothing and [get] always misses. *)
Lemma set_disabled cm c key v ttl now :
  stores (type cm) = false -> set cm c key v ttl now = cm.
Proof. unfold set. by destruct (type cm). Qed.

Lemma get_disabled cm c key now :
  stores (type cm) = false -> get cm c key now = JNull.
Proof. unfold get. by destruct (type cm). Qed.

(** The persisted backend: an entry is returned unchanged strictly
    before its expiry and is a miss from the expiry on. *)
Lemma json_get_fresh cm c key it now :
  type cm = TJson -> store cm c !! key = Some it -> now < expire it ->
  get cm c key now = value it.
Proof.
  intros Ht Hk Hlt. unfold get. rewrite Ht, Hk.
  destruct (expire it >? now) eqn:E; [done | lia].
Qed.

Lemma json_get_stale cm c key it now :
  type cm = TJson -> store cm c !! key = Some it -> expire it <= now ->
  get cm c key now = JNull.
Proof.
  intros Ht Hk Hle. unfold get. rewrite Ht, Hk.
  destruct (expire it >? now) eqn:E; [lia | done].
Qed.

Lemma json_get_absent cm c key now :
  type cm = TJson -> store cm c !! key = None -> get cm c key now = JNull.
Proof. intros Ht Hk. unfold get. by rewrite Ht, Hk. Qed.

Lemma json_get_set cm c key v ttl t0 now :
  type cm = TJson -> now < t0 + ttl * 1000 ->
  get (set cm c key v ttl t0) c key now = v.
Proof.
  intros Ht Hlt.
  apply (json_get_fresh _ _ _ (Item v (t0 + ttl * 1000))); try done.
  - by rewrite type_set.
  - rewrite store_set; [|by rewrite Ht]. apply lookup_insert_eq.
Qed.

Lemma json_get_set_expired cm c key v ttl t0 now :
  type cm = TJson -> t0 + ttl * 1000 <= now ->
  get (set cm c key v ttl t0) c key now = JNull.
Proof.
  intros Ht Hle.
  apply (json_get_stale _ _ _ (Item v (t0 + ttl * 1000))); try done.
  - by rewrite type_set.
  - rewrite store_set; [|by rewrite Ht]. apply lookup_insert_eq.
Qed.

(** The persisted documents mirror the maps after every [set]. *)
Lemma json_set_mirrors cm c key v ttl now :
  type cm = TJson ->
  let cm' := set cm c key v ttl now in
  searchFile cm' = Some (searchCache cm')
  /\ detailFile cm' = Some (detailCache cm').
Proof.
  intros Ht. unfold set, saveDisk. rewrite Ht, type_assign, Ht. by destruct c.
Qed.

(** A restart of the persisted backend finds the entries of the last
    [set]; a restart of any other backend starts empty. *)
Lemma json_restart cm c key v ttl t0 now :
  type cm = TJson ->
  let cm' := set cm c key v ttl t0 in
  get (init TJson (searchFile cm') (detailFile cm')) c key now
  = get cm' c key now.
Proof.
  intros Ht cm'.
  destruct (json_set_mirrors cm c key v ttl t0 Ht) as [Hs Hd].
  fold cm' in Hs, Hd.
  assert (Ht' : type cm' = TJson) by (unfold cm'; by rewrite type_set).
  unfold get. rewrite Ht'. cbn [init type]. rewrite Hs, Hd. by destruct c.
Qed.

Lemma init_empty t : init t None None = new t.
Proof. by destruct t. Qed.

(** The transient backend hands out the stored [{ value, expire }]
    object itself, whatever the time. *)
Lemma memory_get cm c key it now :
  type cm = TMemory -> store cm c !! key = Some it ->
  get cm c key now = item_obj it.
Proof. intros Ht Hk. unfold get. by rewrite Ht, Hk. Qed.

Lemma memory_get_set cm c key v ttl t0 now :
  type cm = TMemory ->
  get (set cm c key v ttl t0) c key now
  = item_obj (Item v (t0 + ttl * 1000)).
Proof.
  intros Ht. apply memory_get; [by rewrite type_set|].
  rewrite store_set; [|by rewrite Ht]. apply lookup_insert_eq.
Qed.

(** C1 (transient backend).  With [CACHE_TYPE=memory], after
    [set('search', "k", "v", 600)] at time 0 the entry expires at 600000;
    a [get] before that time returns the wrapper object
    [{ value: "v", expire: 600000 }] instead of the stored value ["v"],
    and a [get] at or after the expiry returns the same wrapper instead of
    a miss. *)
Theorem memory_get_ignores_expiry :
  let cm := set (new TMemory) CSearch "k" (JStr "v") 600 0 in
  store cm CSearch !! "k" = Some (Item (JStr "v") 600000)
  /\ get cm CSearch "k" 1 = JObj [("value", JStr "v"); ("expire", JNum 600000)]
  /\ get cm CSearch "k" 1 <> JStr "v"
  /\ get cm CSearch "k" 600000
     = JObj [("value", JStr "v"); ("expire", JNum 600000)]
  /\ get cm CSearch "k" 600000 <> JNull
  /\ truthy (get cm CSearch "k" 600000) = true.
Proof.
  cbn zeta.
  assert (Hs : store (set (new TMemory) CSearch "k" (JStr "v") 600 0) CSearch
               !! "k" = Some (Item (JStr "v") 600000)).
  { rewrite store_set; [|done]. apply lookup_insert_eq. }
  assert (Hg : forall now,
             get (set (new TMemory) CSearch "k" (JStr "v") 600 0) CSearch "k" now
             = item_obj (Item (JStr "v") 600000)).
  { intros now. by apply (memory_get_set (new TMemory)). }
  split; [exact Hs|]. rewrite !Hg. by repeat split.
Qed.

End CacheFacts.

(** ** Streaming search: the fan-out and its barrier *)

Module StreamFacts.
Import Cache Search SearchObs CacheFacts.








Lemma store_ok_set_search cm key xs ttl now :
  store_ok cm ->
  store_ok (set cm CSearch key (JObj [("list", JArr xs)]) ttl now).
Proof.
  intros Hok k it. destruct (stores (type cm)) eqn:Hs.
  - change (searchCache ?c) with (store c CSearch). rewrite store_set; [|done].
    rewrite lookup_insert. case_decide; [|apply Hok].
    intros [= <-]. done.
  - rewrite set_disabled; [apply Hok | done].
Qed.

Lemma store_ok_set_detail cm key v ttl now :
  store_ok cm -> store_ok (set cm CDetail key v ttl now).
Proof.
  intros Hok k it. change (searchCache ?c) with (store c CSearch).
  rewrite store_set_other; [apply Hok | done].
Qed.

(** Each branch starts by writing exactly its contribution. *)
Lemma branch_start_contribution cm kw now s :
  snd (branch_start cm kw now s) = contribution (fst (branch_start cm kw now s)).
Proof.
  unfold branch_start.
  destruct (truthy _ && truthy _); [|done].
  by destruct (if truthy _ then _ else _).
Qed.


Lemma branch_resume_contribution cm kw now s r cm' b frames :
  branch_resume cm kw now s r = (cm', b, frames) ->
  frames = contribution b /\ is_fulfilled b = true.
Proof.
  unfold branch_resume. destruct r as [|data].
  - by intros [= <- <- <-].
  - destruct (map_list _ data); by intros [= <- <- <-].
Qed.

(** Every write of the search handlers keeps the search map in shape. *)
Lemma branch_resume_store_ok cm kw now s r :
  store_ok cm -> store_ok (fst (fst (branch_resume cm kw now s r))).
Proof.
  intros Hok. unfold branch_resume. destruct r as [|data]; [done|].
  destruct (map_list _ data); [|done]. by apply store_ok_set_search.
Qed.

Lemma post_search_resume_store_ok cm kw siteKey now r :
  store_ok cm -> store_ok (fst (post_search_resume cm kw siteKey now r)).
Proof.
  intros Hok. unfold post_search_resume. destruct r as [|data]; [done|].
  destruct (map_list _ data); [|done]. by apply store_ok_set_search.
Qed.


Lemma start_all_branches cm kw now sites :
  fst (start_all cm kw now sites)
  = map (fun s => fst (branch_start cm kw now s)) sites.
Proof. unfold start_all. simpl. by rewrite map_map. Qed.






Lemma settle_unfold kw i r now st s :
  branches st !! i = Some (Awaiting s) ->
  exists cm' b,
    branch_resume (cache st) kw now s r = (cm', b, contribution b)
    /\ is_fulfilled b = true
    /\ settle kw i r now st
       = {| cache := cm'; branches := <[i := b]> (branches st);
            out := (out st ++ contribution b)%list; ended := ended st |}.
Proof.
  intros Hi. unfold settle. rewrite Hi.
  destruct (branch_resume (cache st) kw now s r) as [[cm' b] frames] eqn:E.
  destruct (branch_resume_contribution _ _ _ _ _ _ _ _ E) as [-> Hb].
  by exists cm', b.
Qed.








(** Settling branch [i] leaves no request outstanding at [i] and starts
    none elsewhere. *)
Lemma settle_awaiting kw i r now st j s :
  branches (settle kw i r now st) !! j = Some (Awaiting s) ->
  branches st !! j = Some (Awaiting s) /\ j <> i.
Proof.
  destruct (branches st !! i) as [[s0| |]|] eqn:E.
  - destruct (settle_unfold kw i r now st s0 E) as (cm' & b & _ & Hb & ->).
    simpl. destruct (decide (j = i)) as [->|Hne].
    + rewrite list_lookup_insert_eq by (by eapply lookup_lt_Some).
      intros [= ->]. done.
    + rewrite list_lookup_insert_ne by done. by intros H.
  - unfold settle. rewrite E. intros H. split; [done|]. congruence.
  - unfold settle. rewrite E. intros H. split; [done|]. congruence.
  - unfold settle. rewrite E. intros H. split; [done|]. congruence.
Qed.





Lemma get_search_streaming cm sites kw stream now st0 :
  get_search cm sites (Some kw) stream now = Streaming st0 ->
  st0 = {| cache := cm; branches := fst (start_all cm kw now sites);
           out := snd (start_all cm kw now sites); ended := false |}.
Proof.
  unfold get_search. simpl.
  destruct (String.eqb kw ""); [done|].
  destruct (negb _); [done|].
  destruct (start_all cm kw now sites) as [bs frames]. by intros [= <-].
Qed.






End StreamFacts.

(** ** Search: cache-first behaviour and the two endpoints *)

Module SearchFacts.
Import Cache Search SearchObs CacheFacts StreamFacts Scenario.

(** A lookup that yields a value with a non-empty [list] array answers
    from the cache: no upstream request, one frame with the decorated
    list. *)
Lemma stream_hit cm kw now s x xs :
  get_prop (get cm CSearch (cacheKey (Site.key s) kw) now) "list"
  = Some (JArr (x :: xs)) ->
  branch_start cm kw now s
  = (Fulfilled (map (decorate s) (x :: xs)),
     [Data (map (decorate s) (x :: xs))]).
Proof.
  intros H. unfold branch_start.
  destruct (get cm CSearch _ now) as [| | | | | |fs] eqn:E; try done.
  simpl in *. injection H as H. by rewrite H.
Qed.

(** On the persisted backend, an unexpired entry with a non-empty list
    is such a lookup. *)
Lemma json_stream_hit cm kw now s it x xs :
  type cm = TJson ->
  searchCache cm !! cacheKey (Site.key s) kw = Some it ->
  now < expire it ->
  get_prop (value it) "list" = Some (JArr (x :: xs)) ->
  branch_start cm kw now s
  = (Fulfilled (map (decorate s) (x :: xs)),
     [Data (map (decorate s) (x :: xs))]).
Proof.
  intros Ht Hk Hlt Hl. apply stream_hit.
  by rewrite (json_get_fresh cm CSearch _ it now Ht Hk Hlt).
Qed.

(** On the transient backend no lookup of the streaming search is ever
    a hit: every branch goes upstream, whatever the cache holds. *)
Lemma memory_stream_never_hits cm kw now s :
  type cm = TMemory -> branch_start cm kw now s = (Awaiting s, []).
Proof.
  intros Ht. unfold branch_start, get. rewrite Ht.
  by destruct (store cm CSearch !! cacheKey (Site.key s) kw).
Qed.

(** C3 (transient backend).  With [CACHE_TYPE=memory] and the search
    cache holding the entry [siteA_batman -> { list: [movie] }] that
    expires at 600000, a streaming search for ["batman"] at time 1 does
    not answer from the cache: the branch of [siteA] writes no frame and
    is suspended on the upstream request. *)
Theorem memory_stream_refetches :
  searchCache (seeded TMemory) !! "siteA_batman" = Some (Item upstream 600000)
  /\ branch_start (seeded TMemory) "batman" 1 siteA = (Awaiting siteA, [])
  /\ get_search (seeded TMemory) [siteA] (Some "batman") (Some "true") 1
     = Streaming {| cache := seeded TMemory; branches := [Awaiting siteA];
                    out := []; ended := false |}
  /\ awaited (fanout (get_search (seeded TMemory) [siteA] (Some "batman")
                                  (Some "true") 1)) = [siteA].
Proof.
  assert (Hs : searchCache (seeded TMemory) !! "siteA_batman"
               = Some (Item upstream 600000)).
  { unfold seeded. change (searchCache ?c) with (store c CSearch).
    rewrite store_set; [|done]. apply lookup_insert_eq. }
  assert (Hb : branch_start (seeded TMemory) "batman" 1 siteA
               = (Awaiting siteA, [])).
  { unfold branch_start.
    change (cacheKey (Site.key siteA) "batman") with "siteA_batman".
    by rewrite (memory_get (seeded TMemory) CSearch _ _ 1 eq_refl Hs). }
  assert (Hg : get_search (seeded TMemory) [siteA] (Some "batman")
                          (Some "true") 1
               = Streaming {| cache := seeded TMemory;
                              branches := [Awaiting siteA];
                              out := []; ended := false |}).
  { unfold get_search, start_all. simpl map. by rewrite Hb. }
  split; [done|]. split; [done|]. split; [done|]. by rewrite Hg.
Qed.

(** C7.  When the upstream call of a site succeeds and its items map to
    [list], the continuation performs
    [cacheManager.set('search', key, { list }, 600)] (on a storing
    backend the entry is then in the search map with
    [expire = now + 600000]), also when [list] is empty; it writes the
    frame [Data list] when [list] is non-empty and no frame when it is
    empty. *)
Theorem stream_fetch_caches_and_emits cm kw now s data list :
  map_list (map_item s) data = Some list ->
  let key := cacheKey (Site.key s) kw in
  let cm' := set cm CSearch key (JObj [("list", JArr list)]) 600 now in
  exists frames,
    branch_resume cm kw now s (AxiosOk data) = (cm', Fulfilled list, frames)
    /\ (stores (type cm) = true ->
        searchCache cm' !! key
        = Some (Item (JObj [("list", JArr list)]) (now + 600000)))
    /\ (list <> [] -> frames = [Data list])
    /\ (list = [] -> frames = [])
    /\ ((exists items, In (Data items) frames) <-> list <> []).
Proof.
  intros Hmap key cm'. exists (emit list).
  split. { unfold branch_resume. by rewrite Hmap. }
  split.
  { intros Hs. subst cm'. change (searchCache ?c) with (store c CSearch).
    rewrite store_set by done.
    replace (now + 600 * 1000) with (now + 600000) by lia.
    apply lookup_insert_eq. }
  destruct list as [|x l]; simpl.
  - split; [done|]. split; [done|]. split; [|done].
    by intros [items []].
  - split; [done|]. split; [done|]. split; [done|].
    intros _. exists (x :: l). by left.
Qed.

Lemma stream_fetch_caches_and_emits_witness :
  map_list (map_item siteA) upstream_empty = Some []
  /\ exists frames,
       branch_resume (new TJson) "batman" 5 siteA (AxiosOk upstream_empty)
       = (set (new TJson) CSearch "siteA_batman" upstream_empty 600 5,
          Fulfilled [], frames).
Proof.
  split; [reflexivity|].
  destruct (stream_fetch_caches_and_emits (new TJson) "batman" 5 siteA
              upstream_empty [] eq_refl) as (frames & H & _).
  exists frames. exact H.
Defined.


(** The scenario of the specification: two sites and an empty cache;
    [siteA] answers one record, the request to [siteB] times out.  One
    data frame for [siteA], none for [siteB], then the terminal frame. *)
Lemma two_sites_one_timeout :
  exists st0,
    get_search (new TJson) [siteA; siteB] (Some "test") (Some "true") 0
    = Streaming st0
    /\ awaited (branches st0) = [siteA; siteB]
    /\ exists items,
         map_list (map_item siteA) upstream = Some items
         /\ out (try_finish (run_schedule "test"
                                [(0%nat, AxiosOk upstream, 50);
                                 (1%nat, AxiosError, 8000)] st0))
            = [Data items; Done].
Proof.
  eexists. split; [reflexivity|]. split; [reflexivity|].
  eexists. split; reflexivity.
Qed.

(** C9.  A GET search with a keyword that does not ask for
    [stream=true] is not rejected as a client error: line 219 sends
    [{ error: 'Use stream=true for GET requests' }] with no status set,
    hence under the default status 200, where the early return four
    lines above it (missing keyword, line 212) sets 400.  The part of
    the claim on the fan-out holds: the handler returns before any
    branch is started. *)
Theorem non_stream_get_answers_200 cm sites kw stream now :
  kw <> "" -> stream <> Some "true" ->
  get_search cm sites (Some kw) stream now
  = Replied (Http 200 (err "Use stream=true for GET requests"))
  /\ ~ client_error (Http 200 (err "Use stream=true for GET requests"))
  /\ fanout (get_search cm sites (Some kw) stream now) = []
  /\ get_search cm sites None stream now
     = Replied (Http 400 (err "Missing keyword"))
  /\ client_error (Http 400 (err "Missing keyword")).
Proof.
  intros Hkw Hs.
  assert (Hget : get_search cm sites (Some kw) stream now
                 = Replied (Http 200 (err "Use stream=true for GET requests"))).
  { unfold get_search. rewrite (bool_decide_eq_false_2 _ Hs). simpl.
    by rewrite (proj2 (String.eqb_neq kw "") Hkw). }
  split; [exact Hget|]. split.
  { unfold client_error. simpl. lia. }
  split; [by rewrite Hget|]. split; [done|].
  unfold client_error. simpl. lia.
Qed.

Lemma non_stream_get_answers_200_witness :
  "batman" <> ""
  /\ @None string <> Some "true"
  /\ get_search (new TJson) [siteA] (Some "batman") None 0
     = Replied (Http 200 (err "Use stream=true for GET requests")).
Proof.
  assert (Hkw : "batman" <> "") by discriminate.
  assert (Hs : @None string <> Some "true") by discriminate.
  split; [exact Hkw|]. split; [exact Hs|].
  exact (proj1 (non_stream_get_answers_200
                  (new TJson) [siteA] "batman" None 0 Hkw Hs)).
Defined.

(** *** The two endpoints share their cache entries *)

(** A lookup that yields [{ list: [...] }] answers the streaming branch
    from the cache, whatever the list. *)
Lemma stream_hit_list cm kw now s l :
  get cm CSearch (cacheKey (Site.key s) kw) now = JObj [("list", JArr l)] ->
  branch_start cm kw now s
  = (Fulfilled (map (decorate s) l), emit (map (decorate s) l)).
Proof. intros H. unfold branch_start. by rewrite H. Qed.

Lemma find_site_key sites siteKey s :
  find (fun s => String.eqb (Site.key s) siteKey) sites = Some s ->
  Site.key s = siteKey.
Proof. intros H. apply find_some in H as [_ H]. by apply String.eqb_eq. Qed.

(** Persisted backend: what the POST endpoint stored answers the
    streaming endpoint until it expires. *)
Lemma json_post_then_stream cm kw s t0 data l now :
  type cm = TJson ->
  map_list map_item_post data = Some l ->
  now < t0 + 600000 ->
  let cm1 := fst (post_search_resume cm kw (Site.key s) t0 (AxiosOk data)) in
  branch_start cm1 kw now s
  = (Fulfilled (map (decorate s) l), emit (map (decorate s) l)).
Proof.
  intros Ht Hmap Hlt. unfold post_search_resume. rewrite Hmap. simpl.
  apply stream_hit_list. apply json_get_set; [done | lia].
Qed.

(** Persisted backend: what the streaming endpoint stored answers the
    POST endpoint until it expires. *)
Lemma json_stream_then_post cm kw sites s t0 data l now :
  type cm = TJson ->
  find (fun s' => String.eqb (Site.key s') (Site.key s)) sites = Some s ->
  map_list (map_item s) data = Some l ->
  now < t0 + 600000 ->
  let cm1 := fst (fst (branch_resume cm kw t0 s (AxiosOk data))) in
  post_search_start cm1 sites kw (Site.key s) now
  = Answer (Http 200 (JObj [("list", JArr l)])).
Proof.
  intros Ht Hfind Hmap Hlt. unfold branch_resume. rewrite Hmap. simpl.
  unfold post_search_start. rewrite Hfind.
  rewrite json_get_set; [done | done | lia].
Qed.

(** The field subsets differ: the POST mapping drops the playback
    fields the streaming mapping keeps. *)
Lemma post_mapping_drops_playback :
  (map_item_post movie ≫= fun o => get_prop o "vod_play_url")
  = Some JUndefined
  /\ (map_item siteA movie ≫= fun o => get_prop o "vod_play_url")
     = Some (JStr "ep1$https://a.example/1.m3u8").
Proof. done. Qed.

(** C10 (transient backend).  With [CACHE_TYPE=memory] both endpoints
    use the key ["siteA_batman"] of the search map, but the entry the POST
    endpoint stores at time 0 is not a hit for the streaming endpoint at
    time 1 (its branch goes upstream), and the entry the streaming
    endpoint stores is answered by the POST endpoint as the wrapper
    [{ value, expire }], not as the stored [{ list }]. *)
Theorem memory_endpoints_do_not_share :
  let cm1 := fst (post_search_resume (new TMemory) "batman" "siteA" 0
                                     (AxiosOk upstream)) in
  let cm2 := fst (fst (branch_resume (new TMemory) "batman" 0 siteA
                                     (AxiosOk upstream))) in
  cacheKey (Site.key siteA) "batman" = "siteA_batman"
  /\ is_Some (searchCache cm1 !! "siteA_batman")
  /\ branch_start cm1 "batman" 1 siteA = (Awaiting siteA, [])
  /\ (exists l, searchCache cm2 !! "siteA_batman"
                = Some (Item (JObj [("list", JArr l)]) 600000)
                /\ post_search_start cm2 [siteA] "batman" "siteA" 1
                   = Answer (Http 200
                       (JObj [("value", JObj [("list", JArr l)]);
                              ("expire", JNum 600000)]))).
Proof.
  cbn zeta. split; [done|].
  destruct (map_list map_item_post upstream) as [l1|] eqn:E1; [|done].
  destruct (map_list (map_item siteA) upstream) as [l2|] eqn:E2; [|done].
  unfold post_search_resume, branch_resume. rewrite E1, E2. simpl fst.
  change (cacheKey (Site.key siteA) "batman") with "siteA_batman".
  change (cacheKey "siteA" "batman") with "siteA_batman".
  split.
  { change (searchCache ?c) with (store c CSearch).
    rewrite store_set; [|done]. rewrite lookup_insert_eq. by eexists. }
  split.
  { unfold branch_start.
    change (cacheKey (Site.key siteA) "batman") with "siteA_batman".
    by rewrite memory_get_set. }
  exists l2. split.
  { change (searchCache ?c) with (store c CSearch).
    rewrite store_set; [|done]. apply lookup_insert_eq. }
  unfold post_search_start. simpl find.
  change (cacheKey "siteA" "batman") with "siteA_batman".
  by rewrite memory_get_set.
Qed.

End SearchFacts.

(** ** Detail *)

Module DetailFacts.
Import Cache Detail CacheFacts Scenario.

Section lookups.

Variable coerce_gt0 : jsval -> bool.

(** A truthy lookup is answered from the cache, with no upstream call. *)
Lemma detail_hit m cm sites id siteKey s now :
  find (fun s => String.eqb (Site.key s) siteKey) sites = Some s ->
  truthy (get cm CDetail (cacheKey siteKey id) now) = true ->
  detail_start m cm sites id siteKey now
  = Answer (Http 200 (wrap m (get cm CDetail (cacheKey siteKey id) now))).
Proof. intros Hf Ht. unfold Detail.detail_start. by rewrite Hf, Ht. Qed.

(** Anything else goes upstream. *)
Lemma detail_miss m cm sites id siteKey s now :
  find (fun s => String.eqb (Site.key s) siteKey) sites = Some s ->
  truthy (get cm CDetail (cacheKey siteKey id) now) = false ->
  detail_start m cm sites id siteKey now = AwaitAxios s.
Proof. intros Hf Ht. unfold Detail.detail_start. by rewrite Hf, Ht. Qed.

(** A non-empty upstream list: its first element is stored for 3600
    seconds and returned. *)
Lemma detail_found m cm id siteKey now data x xs :
  get_prop data "list" = Some (JArr (x :: xs)) ->
  detail_resume coerce_gt0 m cm id siteKey now (AxiosOk data)
  = (set cm CDetail (cacheKey siteKey id) x 3600 now, Http 200 (wrap m x)).
Proof.
  intros H. unfold Detail.detail_resume, first_of_list. by rewrite H.
Qed.

(** An empty upstream list: not found, and the cache is left as it
    was, so the next lookup misses again. *)
Lemma detail_not_found m cm id siteKey now data :
  get_prop data "list" = Some (JArr []) ->
  detail_resume coerce_gt0 m cm id siteKey now (AxiosOk data)
  = (cm, Http 404 (failure m "Not found")).
Proof.
  intros H. unfold Detail.detail_resume, first_of_list. by rewrite H.
Qed.

(** Persisted backend: the three cases of a lookup. *)
Lemma json_detail_hit m cm sites id siteKey s it now :
  type cm = TJson ->
  find (fun s => String.eqb (Site.key s) siteKey) sites = Some s ->
  detailCache cm !! cacheKey siteKey id = Some it ->
  now < expire it -> truthy (value it) = true ->
  detail_start m cm sites id siteKey now
  = Answer (Http 200 (wrap m (value it))).
Proof.
  intros Ht Hf Hk Hlt Hv.
  pose proof (json_get_fresh cm CDetail _ it now Ht Hk Hlt) as Hg.
  rewrite (detail_hit m cm sites id siteKey s now Hf); rewrite Hg; done.
Qed.

Lemma json_detail_cached_then_hit m cm sites id siteKey s t0 now data x xs :
  type cm = TJson ->
  find (fun s => String.eqb (Site.key s) siteKey) sites = Some s ->
  get_prop data "list" = Some (JArr (x :: xs)) ->
  truthy x = true -> now < t0 + 3600000 ->
  detail_start m (fst (detail_resume coerce_gt0 m cm id siteKey t0 (AxiosOk data)))
               sites id siteKey now
  = Answer (Http 200 (wrap m x)).
Proof.
  intros Ht Hf Hl Hx Hlt. rewrite (detail_found _ _ _ _ _ _ _ _ Hl). simpl.
  assert (get (set cm CDetail (cacheKey siteKey id) x 3600 t0) CDetail
              (cacheKey siteKey id) now = x) as Hg.
  { apply json_get_set; [done | lia]. }
  rewrite (detail_hit _ _ _ _ _ s _ Hf); rewrite Hg; done.
Qed.

Lemma detail_not_found_refetches m cm sites id siteKey s t0 now data :
  find (fun s => String.eqb (Site.key s) siteKey) sites = Some s ->
  truthy (get cm CDetail (cacheKey siteKey id) now) = false ->
  get_prop data "list" = Some (JArr []) ->
  detail_start m (fst (detail_resume coerce_gt0 m cm id siteKey t0 (AxiosOk data)))
               sites id siteKey now
  = AwaitAxios s.
Proof.
  intros Hf Hm Hl. rewrite (detail_not_found _ _ _ _ _ _ Hl). simpl.
  by apply detail_miss.
Qed.

(** C8 (transient backend).  With [CACHE_TYPE=memory], a detail lookup
    of id ["1"] on [siteA] at time 0 misses, fetches [movie], stores it
    until 3600000 and returns it; the same lookup at time 1 is answered
    from the cache without an upstream call, but with the wrapper
    [{ value: movie, expire: 3600000 }] in place of the cached record,
    and it is still answered so at the expiry time. *)
Theorem memory_detail_hit_returns_wrapper :
  let first := detail coerce_gt0 POST (new TMemory) [siteA] "1" "siteA" 0
                      (AxiosOk upstream) 0 in
  let cm1 := fst (fst first) in
  let wrapper := JObj [("value", movie); ("expire", JNum 3600000)] in
  snd (fst first) = Http 200 movie
  /\ snd first = true
  /\ detailCache cm1 !! "siteA_detail_1" = Some (Item movie 3600000)
  /\ detail_start POST cm1 [siteA] "1" "siteA" 1 = Answer (Http 200 wrapper)
  /\ detail_start GET cm1 [siteA] "1" "siteA" 1
     = Answer (Http 200 (JObj [("list", JArr [wrapper])]))
  /\ detail_start POST cm1 [siteA] "1" "siteA" 3600000
     = Answer (Http 200 wrapper)
  /\ wrapper <> movie.
Proof.
  cbn zeta.
  assert (Hfirst : detail coerce_gt0 POST (new TMemory) [siteA] "1" "siteA" 0
                          (AxiosOk upstream) 0
                   = (set (new TMemory) CDetail "siteA_detail_1" movie 3600 0,
                      Http 200 movie, true)) by done.
  rewrite Hfirst. simpl fst. simpl snd.
  assert (Hg : forall now,
             get (set (new TMemory) CDetail "siteA_detail_1" movie 3600 0)
                 CDetail "siteA_detail_1" now
             = JObj [("value", movie); ("expire", JNum 3600000)]).
  { intros now. by rewrite memory_get_set. }
  split; [done|]. split; [done|]. split.
  { change (detailCache ?c) with (store c CDetail).
    rewrite store_set; [|done]. apply lookup_insert_eq. }
  unfold Detail.detail_start. simpl find.
  change (cacheKey "siteA" "1") with "siteA_detail_1".
  rewrite !Hg. by repeat split.
Qed.

End lookups.

End DetailFacts.

(** ** Paths *)

Module PathFacts.
Import Path.

Lemma push_plain stack seg : plain seg = true -> push stack seg = seg :: stack.
Proof.
  unfold plain, push. intros H.
  destruct (String.eqb seg ""), (String.eqb seg "."), (String.eqb seg "..");
    done.
Qed.

Lemma push_keeps_plain stack seg :
  forallb plain stack = true -> forallb plain (push stack seg) = true.
Proof.
  intros H. unfold push.
  destruct (String.eqb seg "" || String.eqb seg ".") eqn:E1; [done|].
  destruct (String.eqb seg "..") eqn:E2.
  - destruct stack; [done|]. simpl in *. by apply andb_true_iff in H as [_ H].
  - simpl. rewrite H, andb_true_r. unfold plain.
    apply orb_false_iff in E1 as [-> ->]. by rewrite E2.
Qed.

Lemma fold_push_keeps_plain segs stack :
  forallb plain stack = true ->
  forallb plain (fold_left push segs stack) = true.
Proof.
  revert stack. induction segs as [|seg segs IH]; intros stack H; simpl.
  - done.
  - apply IH. by apply push_keeps_plain.
Qed.

Lemma forallb_rev {A} (f : A -> bool) l :
  forallb f (rev l) = forallb f l.
Proof.
  induction l as [|x l IH]; simpl; [done|].
  rewrite forallb_app, IH. simpl. rewrite andb_true_r. apply andb_comm.
Qed.

(** The result of [path.join] has no empty, [.] or [..] segment. *)
Lemma normalize_plain segs : forallb plain (normalize segs) = true.
Proof.
  unfold normalize. rewrite forallb_rev. by apply fold_push_keeps_plain.
Qed.

Lemma fold_push_plain segs stack :
  forallb plain segs = true ->
  fold_left push segs stack = (rev segs ++ stack)%list.
Proof.
  revert stack. induction segs as [|seg segs IH]; intros stack H; simpl.
  - done.
  - apply andb_true_iff in H as [Hs H].
    rewrite push_plain by done. rewrite IH by done.
    by rewrite <- app_assoc.
Qed.

(** Joining onto a normalized base only ever rewrites what follows it. *)
Lemma join_from_base base parts :
  forallb plain base = true ->
  join base parts
  = rev (fold_left push (concat (map split_slash parts)) (rev base)).
Proof.
  intros H. unfold join, normalize. rewrite fold_left_app.
  rewrite (fold_push_plain base []) by done. by rewrite app_nil_r.
Qed.

Lemma split_slash_nonempty s : split_slash s <> [].
Proof.
  destruct s as [|c s]; simpl; [done|].
  destruct (split_slash s); [done|]. by destruct (Ascii.eqb c "/").
Qed.

(** A string without ['/'] is a single segment. *)
Lemma split_slash_single s :
  forallb (fun c => negb (Ascii.eqb c "/")) (list_ascii_of_string s) = true ->
  split_slash s = [s].
Proof.
  induction s as [|c s IH]; simpl; [done|].
  intros H. apply andb_true_iff in H as [Hc H].
  rewrite IH by done. revert Hc. by destruct (Ascii.eqb c "/").
Qed.

Lemma is_prefix_app (p q : path) : is_prefix p (p ++ q)%list = true.
Proof.
  induction p as [|a p IH]; simpl; [done|].
  by rewrite String.eqb_refl, IH.
Qed.

End PathFacts.

(** ** The image proxy *)

Module ImageFacts.
Import Path PathFacts Image.

Lemma allowed_char_not_slash c :
  allowed_char c = true -> negb (Ascii.eqb c "/") = true.
Proof.
  destruct c as [b0 b1 b2 b3 b4 b5 b6 b7].
  destruct b0, b1, b2, b3, b4, b5, b6, b7; vm_compute; congruence.
Qed.

Lemma filename_ok_single filename :
  filename_ok filename = true ->
  split_slash filename = [filename] /\ String.eqb filename "" = false.
Proof.
  unfold filename_ok. intros H. apply andb_true_iff in H as [Hne Hall].
  split; [|by destruct (String.eqb filename "")].
  apply split_slash_single. rewrite forallb_forall in *.
  intros c Hc. apply allowed_char_not_slash. by apply Hall.
Qed.

Lemma allowed_size_single size :
  existsb (String.eqb size) allowSizes = true ->
  split_slash size = [size] /\ plain size = true.
Proof.
  simpl. rewrite !orb_true_iff.
  intros [H|[H|[H|[H|[H|[H|H]]]]]]; try done;
    apply String.eqb_eq in H; by subst.
Qed.

Section handler.

Variable __dirname : path.
Variable dirSize : Z.

Lemma IMAGE_CACHE_DIR_plain : forallb plain (IMAGE_CACHE_DIR __dirname) = true.
Proof. apply normalize_plain. Qed.

(** The derived path of an accepted request: the file under its size
    directory, or, for the file names ["."] and [".."], the size
    directory and the cache root themselves. *)
Lemma localPath_shape size filename :
  invalid size filename = false ->
  let root := IMAGE_CACHE_DIR __dirname in
  localPath __dirname size filename
  = (root ++ (if String.eqb filename "." then [size]
              else if String.eqb filename ".." then []
              else [size; filename]))%list.
Proof.
  unfold invalid. intros H. apply orb_false_iff in H as [Hs Hf].
  apply negb_false_iff in Hs, Hf.
  destruct (allowed_size_single _ Hs) as [Hs1 Hs2].
  destruct (filename_ok_single _ Hf) as [Hf1 Hf2].
  cbn zeta. unfold localPath.
  rewrite join_from_base by apply IMAGE_CACHE_DIR_plain.
  simpl concat. rewrite Hs1, Hf1. simpl.
  rewrite (push_plain _ size Hs2). unfold push. rewrite Hf2. simpl.
  destruct (String.eqb filename "."); simpl.
  - by rewrite rev_involutive.
  - destruct (String.eqb filename ".."); simpl.
    + by rewrite rev_involutive, app_nil_r.
    + rewrite rev_involutive. by rewrite <- app_assoc.
Qed.

(** Any file name with a character outside the allow-list, in
    particular one containing ['/'], is invalid. *)
Lemma bad_char_invalid size filename c :
  In c (list_ascii_of_string filename) -> allowed_char c = false ->
  invalid size filename = true.
Proof.
  intros Hin Hc. unfold invalid, filename_ok.
  destruct (forallb allowed_char (list_ascii_of_string filename)) eqn:E.
  - rewrite forallb_forall in E. specialize (E _ Hin). congruence.
  - by rewrite andb_false_r, orb_true_r.
Qed.

(** C5.  A request whose size is not in the allow-set or whose file
    name does not match the pattern is answered with status 400 and
    leaves the world as it was: no call into [fs] is made (the log is
    unchanged).  For an accepted request the derived local path has the
    image cache root as a prefix. *)
Theorem image_validation_guards_root w now size filename :
  (invalid size filename = true ->
   image_start __dirname dirSize w now size filename
   = Answered (Send 400 "Invalid parameters") w)
  /\ (invalid size filename = false ->
      is_prefix (IMAGE_CACHE_DIR __dirname)
                (localPath __dirname size filename) = true
      /\ exists rest,
           localPath __dirname size filename
           = (IMAGE_CACHE_DIR __dirname ++ rest)%list).
Proof.
  split.
  - intros H. unfold image_start. by rewrite H.
  - intros H. rewrite (localPath_shape _ _ H). cbn zeta.
    split; [apply is_prefix_app|]. by eexists.
Qed.

(** The [catch] block answers 404 only with nothing left at the path;
    when [unlinkSync] throws (a directory at the path) no answer is
    sent. *)
Lemma on_error_spec p w r w' :
  on_error p w = (r, w') ->
  (r = Send 404 "Image not found" /\ files w' !! p = None)
  \/ (r = Unhandled /\ exists st, files w !! p = Some st
                                   /\ isDirectory st = true).
Proof.
  unfold on_error. cbn [files logged].
  destruct (files w !! p) as [st|] eqn:E.
  - destruct (isDirectory st) eqn:Ed; intros [= <- <-].
    + right. split; [done|]. by exists st.
    + left. split; [done|]. cbn [files with_files]. apply lookup_delete_eq.
  - intros [= <- <-]. left. split; [done|]. by cbn [files logged].
Qed.

Lemma write_file_dir now p n w st :
  files (write_file now p n w) !! p = Some st -> isDirectory st = true ->
  files w !! p = Some st.
Proof.
  unfold write_file. cbn [files logged].
  destruct (files w !! p) as [st0|] eqn:E.
  - destruct (isDirectory st0) eqn:Ed; cbn [files logged with_files].
    + by rewrite E.
    + rewrite lookup_insert_eq. by intros [= <-].
  - cbn [files with_files]. rewrite lookup_insert_eq. by intros [= <-].
Qed.

(** C6.  When the download of a cache miss fails (the upstream request
    fails, or the pipeline fails with the file absent, empty or partly
    written), the handler answers 404 only after the file at the derived
    path has been removed: in the world of the answer nothing is at that
    path (if [unlinkSync] itself throws, because the path is a directory,
    no answer is sent at all).  And the handler serves a path as a cache
    hit only if the file there has a size greater than zero. *)
Theorem image_failure_cleans_up w now size filename p d :
  (failed d = true ->
   forall r w', image_resume w now p d = (r, w') ->
     (r = Send 404 "Image not found" /\ files w' !! p = None)
     \/ (r = Unhandled /\ exists st, files w !! p = Some st
                                      /\ isDirectory st = true))
  /\ (forall p2 w2,
        image_start __dirname dirSize w now size filename
        = Answered (SendFile p2) w2 ->
        p2 = localPath __dirname size filename
        /\ exists st, files w !! p2 = Some st /\ 0 < Image.size st).
Proof.
  split.
  - intros Hd r w' Hr. destruct d as [|[n|]|n]; [| | |done]; simpl in Hr.
    + by apply on_error_spec.
    + destruct (on_error_spec _ _ _ _ Hr) as [H|(-> & st & Hst & Hdir)];
        [by left|].
      right. split; [done|]. exists st. split; [|done].
      by eapply write_file_dir.
    + destruct (on_error_spec _ _ _ _ Hr) as [H|(-> & st & Hst & Hdir)];
        [by left|].
      right. split; [done|]. by exists st.
  - intros p2 w2. unfold image_start.
    destruct (invalid size filename); [done|]. cbn [files logged].
    destruct (files w !! localPath __dirname size filename) as [st|] eqn:E;
      cbn [default].
    + destruct (0 <? Image.size st) eqn:Epos.
      * intros [= <- _]. split; [done|]. exists st. split; [done|lia].
      * repeat case_match; done.
    + repeat case_match; done.
Qed.

End handler.

(** The scenario of the specification: with an empty cache directory a
    request for [w500/abc.jpg] goes upstream once and stores the 9 bytes
    it receives; the same request is then served from disk, with no
    upstream request, and the modification time of the file is set to the
    time of the hit. *)
Lemma image_miss_then_hit :
  let p := ["srv"; "public"; "cache"; "images"; "w500"; "abc.jpg"] in
  exists w1 w2 w3,
    image_start ["srv"] 4096 (World ∅ 0 0 []) 10 "w500" "abc.jpg"
    = Fetching p w1
    /\ image_resume w1 20 p (Complete 9) = (SendFile p, w2)
    /\ files w2 !! p = Some (Stat false 9 20)
    /\ newItemCount w2 = 1
    /\ image_start ["srv"] 4096 w2 30 "w500" "abc.jpg"
       = Answered (SendFile p) w3
    /\ files w3 !! p = Some (Stat false 9 30).
Proof.
  cbn zeta. eexists _, _, _.
  split; [vm_compute; reflexivity|].
  split; [vm_compute; reflexivity|].
  split; [vm_compute; reflexivity|].
  split; [vm_compute; reflexivity|].
  split; vm_compute; reflexivity.
Qed.

Lemma image_failure_cleans_up_witness :
  failed (WriteFailed (Some 0)) = true
  /\ fst (image_resume (World ∅ 0 0 []) 7 ["srv"; "w500"; "abc.jpg"]
                       (WriteFailed (Some 0)))
     = Send 404 "Image not found".
Proof.
  split; [reflexivity|].
  destruct (image_resume (World ∅ 0 0 []) 7 ["srv"; "w500"; "abc.jpg"]
                         (WriteFailed (Some 0))) as [r w'] eqn:E.
  destruct (proj1 (image_failure_cleans_up ["srv"] 4096 (World ∅ 0 0 []) 7
                     "w500" "abc.jpg" ["srv"; "w500"; "abc.jpg"]
                     (WriteFailed (Some 0))) eq_refl r w' E)
    as [[-> _]|(_ & st & Hst & _)].
  - reflexivity.
  - cbn [files] in Hst. rewrite lookup_empty in Hst. discriminate Hst.
Defined.

Lemma image_validation_guards_root_witness :
  invalid "w500" "../secret" = true
  /\ image_start ["srv"] 4096 (World ∅ 0 0 []) 7 "w500" "../secret"
     = Answered (Send 400 "Invalid parameters") (World ∅ 0 0 [])
  /\ invalid "w500" "abc.jpg" = false
  /\ is_prefix (IMAGE_CACHE_DIR ["srv"]) (localPath ["srv"] "w500" "abc.jpg")
     = true.
Proof.
  assert (H1 : invalid "w500" "../secret" = true) by reflexivity.
  assert (H2 : invalid "w500" "abc.jpg" = false) by reflexivity.
  split; [exact H1|]. split.
  - exact (proj1 (image_validation_guards_root ["srv"] 4096 (World ∅ 0 0 []) 7
                    "w500" "../secret") H1).
  - split; [exact H2|].
    exact (proj1 (proj2 (image_validation_guards_root ["srv"] 4096
                           (World ∅ 0 0 []) 7 "w500" "abc.jpg") H2)).
Defined.

End ImageFacts.

(** ** The eviction pass *)

Module SweepFacts.
Import Path Sweep.

(** Induction over a directory tree. *)
Lemma node_induction (P : node -> Prop) :
  (forall size mtime, P (File size mtime)) ->
  (forall items, Forall (fun e => P (snd e)) items -> P (Dir items)) ->
  forall n, P n.
Proof.
  intros HF HD.
  fix IH 1. intros [size mtime|items].
  - apply HF.
  - apply HD. induction items as [|[item child] items IHitems].
    + constructor.
    + constructor; [apply IH | apply IHitems].
Qed.

Lemma total_size_app l1 l2 :
  total_size (l1 ++ l2) = total_size l1 + total_size l2.
Proof. induction l1 as [|f l1 IH]; simpl; [done|]. rewrite IH. lia. Qed.

(** The walk adds to its accumulator the files below the node and the
    sum of their sizes. *)
Lemma visit_files_below n :
  forall p acc,
    visit p n acc
    = (fst acc + total_size (files_below p n),
       (snd acc ++ files_below p n)%list).
Proof.
  induction n as [size mtime|items IH] using node_induction; intros p acc.
  - simpl. f_equal. lia.
  - simpl. revert acc.
    induction items as [|[item child] items IHitems]; intros acc.
    + destruct acc as [t fs]. simpl. f_equal; [lia | by rewrite app_nil_r].
    + inversion IH as [|e l Hchild Hrest]; subst. simpl in Hchild.
      rewrite Hchild. rewrite (IHitems Hrest). simpl.
      rewrite total_size_app, app_assoc. f_equal. lia.
Qed.

(** [totalSize] is the sum of the sizes of the collected files. *)
Lemma traverseDir_total dir root total files :
  traverseDir dir root = Some (total, files) -> total = total_size files.
Proof.
  destruct root as [[size mtime|items]|]; simpl; [done| |].
  - change ((fix forEach (items0 : list (string * node)) (acc : Z * list file)
               {struct items0} : Z * list file := _) items (0, []))
      with (visit dir (Dir items) (0, [])).
    rewrite visit_files_below. simpl fst. simpl snd. by intros [= <- <-].
  - by intros [= <- <-].
Qed.

(** *** The sort *)

Lemma insert_perm x l : Permutation (insert x l) (x :: l).
Proof.
  induction l as [|y l IH]; simpl; [done|].
  destruct (time x <=? time y); [done|].
  rewrite IH. apply perm_swap.
Qed.

Lemma sort_perm files : Permutation (sort files) files.
Proof.
  induction files as [|x l IH]; simpl; [done|].
  rewrite insert_perm. by constructor.
Qed.

Lemma insert_sorted x l :
  StronglySorted older l -> StronglySorted older (insert x l).
Proof.
  induction l as [|y l IH]; simpl; intros Hs.
  - repeat constructor.
  - destruct (time x <=? time y) eqn:E.
    + constructor; [done|]. apply StronglySorted_inv in Hs as [_ Hy].
      constructor; [unfold older; lia|].
      eapply List.Forall_impl; [|exact Hy]. unfold older. intros z Hz. lia.
    + apply StronglySorted_inv in Hs as [Hl Hy].
      constructor; [by apply IH|].
      rewrite (Forall_forall (older y)). intros z Hz.
      apply (Permutation_in _ (insert_perm x l)) in Hz as [<-|Hz].
      * unfold older. lia.
      * rewrite List.Forall_forall in Hy. by apply Hy.
Qed.

Lemma sort_sorted files : StronglySorted older (sort files).
Proof.
  induction files as [|x l IH]; simpl; [constructor|]. by apply insert_sorted.
Qed.

Lemma at_time_insert t x l :
  at_time t (insert x l) = at_time t (x :: l).
Proof.
  induction l as [|y l IH]; [done|]. cbn [insert].
  destruct (time x <=? time y) eqn:E; [done|].
  unfold at_time in *. cbn [List.filter] in *. rewrite IH.
  destruct (time x =? t) eqn:Ex; [|done].
  destruct (time y =? t) eqn:Ey; [lia | done].
Qed.

(** The sort is stable: files with equal times keep the order of the
    walk. *)
Lemma sort_stable t files : at_time t (sort files) = at_time t files.
Proof.
  induction files as [|x l IH]; [done|].
  cbn [sort foldr]. fold (sort l). rewrite at_time_insert.
  unfold at_time in *. cbn [List.filter]. by rewrite IH.
Qed.

Lemma total_size_perm l1 l2 :
  Permutation l1 l2 -> total_size l1 = total_size l2.
Proof. induction 1; simpl; lia. Qed.

(** *** The target, in double precision *)

(** Rounding moves a number below 2^103 by at most 2^49. *)
Lemma round53_near a :
  0 < a -> a < 2 ^ 103 -> a - 2 ^ 49 <= round53 a <= a + 2 ^ 49.
Proof.
  intros Hpos Hlt. unfold round53. rewrite Z.abs_eq by lia.
  destruct (Z.log2 a + 1 - 53 <=? 0) eqn:Es; [lia|].
  apply Z.leb_gt in Es.
  assert (Z.log2 a < 103) as Hlog by (by apply Z.log2_lt_pow2).
  remember (Z.log2 a + 1 - 53) as sh eqn:Hsh.
  assert (2 ^ sh = 2 * 2 ^ (sh - 1)) as Hp.
  { rewrite <- Z.pow_succ_r by lia. f_equal. lia. }
  assert (0 < 2 ^ (sh - 1)) as Hhalf by (apply Z.pow_pos_nonneg; lia).
  assert (2 ^ (sh - 1) <= 2 ^ 49) as Hle by (apply Z.pow_le_mono_r; lia).
  pose proof (Z.div_mod a (2 ^ sh) ltac:(lia)) as Hdm.
  pose proof (Z.mod_pos_bound a (2 ^ sh) ltac:(lia)) as Hr.
  rewrite (Z.sgn_pos a) by lia. rewrite Z.mul_1_l.
  remember (a / 2 ^ sh) as q. remember (a mod 2 ^ sh) as r.
  remember (2 ^ sh) as pw. remember (2 ^ (sh - 1)) as half.
  assert ((q + 1) * pw = pw * q + pw) as Hq1 by ring.
  assert (q * pw = pw * q) as Hq0 by ring.
  destruct (r <? half) eqn:E1; [rewrite Hq0; lia|].
  destruct (half <? r) eqn:E2; [rewrite Hq1; lia|].
  destruct (Z.even q); [rewrite Hq0; lia | rewrite Hq1; lia].
Qed.

(** For a total above the budget and below 2^50 bytes, the comparison
    of line 507 holds exactly when the bytes deleted have reached
    [total - 0.9 * maxBytes]. *)
Lemma reached_exact total d :
  maxBytes < total -> total < 2 ^ 50 ->
  reached total d = (10 * total - 9 * maxBytes <=? 10 * d).
Proof.
  intros Hgt Hlt. unfold reached, targetDelete.
  change (round53 (maxBytes * point9)) with 8704265901225330272632832.
  change maxBytes with 1073741824 in *.
  change (2 ^ 50) with 1125899906842624 in Hlt.
  change (2 ^ 53) with 9007199254740992.
  pose proof (round53_near (total * 9007199254740992
                            - 8704265901225330272632832)) as Hn.
  change (2 ^ 103) with 10141204801825835211973625643008 in Hn.
  change (2 ^ 49) with 562949953421312 in Hn.
  specialize (Hn ltac:(lia) ltac:(lia)).
  destruct (_ <=? d * 9007199254740992) eqn:E1;
    destruct (10 * total - 9 * 1073741824 <=? 10 * d) eqn:E2; try done; lia.
Qed.

(** *** The deletion loop *)

Lemma total_size_cons f l : total_size (f :: l) = fsize f + total_size l.
Proof. done. Qed.

Lemma deleted_cons f ft r :
  deleted ((f, ft) :: r)
  = match ft with Deleted => f :: deleted r | _ => deleted r end.
Proof. by destruct ft. Qed.

Lemma untouched_cons f ft r :
  untouched ((f, ft) :: r)
  = match ft with Untouched => f :: untouched r | _ => untouched r end.
Proof. by destruct ft. Qed.

Lemma remaining_cons f ft r :
  remaining ((f, ft) :: r)
  = match ft with Deleted => remaining r | _ => f :: remaining r end.
Proof. by destruct ft. Qed.

Lemma deleted_untouched_all files :
  deleted (map (fun g => (g, Untouched)) files) = [].
Proof.
  induction files as [|f l IH]; [done|].
  cbn [map]. by rewrite deleted_cons.
Qed.

Lemma untouched_untouched_all files :
  untouched (map (fun g => (g, Untouched)) files) = files.
Proof.
  induction files as [|f l IH]; [done|].
  cbn [map]. by rewrite untouched_cons, IH.
Qed.

Lemma delete_loop_files ok total files d0 :
  map fst (fst (delete_loop ok total files d0)) = files.
Proof.
  revert d0. induction files as [|f rest IH]; intros d0; simpl; [done|].
  destruct (reached total d0).
  - simpl. f_equal. rewrite map_map. simpl. apply map_id.
  - destruct (ok (fpath f)).
    + specialize (IH (d0 + fsize f)).
      destruct (delete_loop ok total rest (d0 + fsize f)). simpl in *.
      by rewrite IH.
    + specialize (IH d0).
      destruct (delete_loop ok total rest d0). simpl in *. by rewrite IH.
Qed.

(** [deletedSize] is the sum of the sizes of the files deleted. *)
Lemma delete_loop_size ok total files d0 :
  snd (delete_loop ok total files d0)
  = d0 + total_size (deleted (fst (delete_loop ok total files d0))).
Proof.
  revert d0. induction files as [|f rest IH]; intros d0;
    cbn [delete_loop]; [simpl; lia|].
  destruct (reached total d0).
  - cbn [fst snd]. rewrite deleted_untouched_all. simpl. lia.
  - destruct (ok (fpath f)).
    + specialize (IH (d0 + fsize f)).
      destruct (delete_loop ok total rest (d0 + fsize f)).
      cbn [fst snd] in *. rewrite deleted_cons, total_size_cons. lia.
    + specialize (IH d0).
      destruct (delete_loop ok total rest d0).
      cbn [fst snd] in *. by rewrite deleted_cons.
Qed.

(** No file is unlinked once the target is reached: before each
    deletion the bytes deleted so far are short of it. *)
Lemma delete_loop_stops ok total files d0 pre f post :
  deleted (fst (delete_loop ok total files d0)) = (pre ++ f :: post)%list ->
  reached total (d0 + total_size pre) = false.
Proof.
  revert d0 pre. induction files as [|g rest IH]; intros d0 pre;
    cbn [delete_loop].
  - by destruct pre.
  - destruct (reached total d0) eqn:E.
    + cbn [fst]. rewrite deleted_untouched_all. by destruct pre.
    + destruct (ok (fpath g)).
      * specialize (IH (d0 + fsize g)).
        destruct (delete_loop ok total rest (d0 + fsize g)).
        cbn [fst] in *. rewrite deleted_cons.
        destruct pre as [|g' pre].
        -- intros _. simpl. by rewrite Z.add_0_r.
        -- intros [= <- H]. specialize (IH _ H).
           by rewrite total_size_cons, Z.add_assoc.
      * specialize (IH d0).
        destruct (delete_loop ok total rest d0).
        cbn [fst] in *. rewrite deleted_cons. apply IH.
Qed.

(** The loop attempts a prefix of the array and leaves the rest. *)
Lemma delete_loop_split ok total files d0 :
  exists attempted rest,
    fst (delete_loop ok total files d0)
    = (attempted ++ map (fun g => (g, Untouched)) rest)%list
    /\ Forall (fun e => snd e <> Untouched) attempted
    /\ files = (map fst attempted ++ rest)%list
    /\ (rest <> [] -> reached total (snd (delete_loop ok total files d0)) = true).
Proof.
  revert d0. induction files as [|f files IH]; intros d0; simpl.
  - exists [], []. by repeat split.
  - destruct (reached total d0) eqn:E.
    + exists [], (f :: files). by repeat split.
    + destruct (ok (fpath f)).
      * destruct (IH (d0 + fsize f)) as (att & rest & H1 & H2 & H3 & H4).
        destruct (delete_loop ok total files (d0 + fsize f)). simpl in *.
        exists ((f, Deleted) :: att), rest. subst. repeat split; try done.
        by constructor.
      * destruct (IH d0) as (att & rest & H1 & H2 & H3 & H4).
        destruct (delete_loop ok total files d0). simpl in *.
        exists ((f, DeleteFailed) :: att), rest. subst. repeat split; try done.
        by constructor.
Qed.

Lemma with_fate_app ft r1 r2 :
  with_fate ft (r1 ++ r2) = (with_fate ft r1 ++ with_fate ft r2)%list.
Proof. unfold with_fate. by rewrite List.filter_app, map_app. Qed.

Lemma with_fate_in ft r f : In f (with_fate ft r) -> In f (map fst r).
Proof.
  unfold with_fate. rewrite !in_map_iff.
  intros (e & <- & He). apply filter_In in He as [He _]. by exists e.
Qed.

Lemma untouched_attempted att :
  Forall (fun e => snd e <> Untouched) att -> untouched att = [].
Proof.
  induction 1 as [|[f ft] att Hx _ IH]; [done|].
  rewrite untouched_cons, IH. by destruct ft.
Qed.

Lemma deleted_sorted r :
  StronglySorted older (map fst r) -> StronglySorted older (deleted r).
Proof.
  induction r as [|[f ft] r IH]; [constructor|].
  cbn [map fst]. intros Hs. apply StronglySorted_inv in Hs as [Hr Hf].
  rewrite deleted_cons. destruct ft; try by apply IH.
  constructor; [by apply IH|].
  rewrite List.Forall_forall in *. intros g Hg. apply Hf.
  by eapply with_fate_in.
Qed.

Lemma sorted_app_older l1 l2 a b :
  StronglySorted older (l1 ++ l2) -> In a l1 -> In b l2 -> older a b.
Proof.
  induction l1 as [|x l1 IH]; [done|].
  cbn [app]. intros Hs [->|Ha] Hb; apply StronglySorted_inv in Hs as [Hs Hx].
  - rewrite List.Forall_forall in Hx. apply Hx, in_or_app. by right.
  - by apply IH.
Qed.

Lemma total_size_split r :
  total_size (map fst r) = total_size (deleted r) + total_size (remaining r).
Proof.
  induction r as [|[f ft] r IH]; [done|].
  cbn [map fst]. rewrite deleted_cons, remaining_cons, total_size_cons, IH.
  destruct ft; rewrite ?total_size_cons; lia.
Qed.

(** When every unlink succeeds the loop ends on the target or with
    nothing left. *)
Lemma delete_loop_no_failure ok total files d0 :
  (forall f, In f files -> ok (fpath f) = true) ->
  reached total (snd (delete_loop ok total files d0)) = true
  \/ remaining (fst (delete_loop ok total files d0)) = [].
Proof.
  revert d0. induction files as [|f rest IH]; intros d0 Hok;
    cbn [delete_loop].
  - by right.
  - destruct (reached total d0) eqn:E; [by left|].
    rewrite (Hok f) by (by left).
    destruct (IH (d0 + fsize f)) as [H|H].
    { intros g Hg. apply Hok. by right. }
    + left. by destruct (delete_loop ok total rest (d0 + fsize f)).
    + right. destruct (delete_loop ok total rest (d0 + fsize f)).
      cbn [fst] in *. by rewrite remaining_cons.
Qed.

(** Within the budget the pass deletes nothing. *)
Lemma sweep_within_budget ok dir root total files :
  traverseDir dir root = Some (total, files) -> total <= maxBytes ->
  deleted (fst (sweep ok dir root)) = []
  /\ remaining (fst (sweep ok dir root)) = files.
Proof.
  intros Ht Hle. unfold sweep. rewrite Ht.
  destruct (total >? maxBytes) eqn:E; [lia|]. cbn [fst].
  split; [apply deleted_untouched_all|].
  induction files as [|f l IH]; [done|].
  cbn [map]. rewrite remaining_cons. f_equal.
  clear -l. induction l as [|g l IH]; [done|].
  cbn [map]. rewrite remaining_cons. by f_equal.
Qed.

Lemma sweep_over_budget ok dir root total files :
  traverseDir dir root = Some (total, files) -> total > maxBytes ->
  sweep ok dir root = delete_loop ok total (sort files) 0.
Proof.
  intros Ht Hgt. unfold sweep. rewrite Ht.
  destruct (total >? maxBytes) eqn:E; [done | lia].
Qed.

(** The fate of every file of the array: it is left untouched exactly
    when the target was reached before its turn; otherwise it is unlinked,
    and it is deleted exactly when the unlink succeeds. *)
Lemma delete_loop_fates ok total files d0 r1 f ft r2 :
  fst (delete_loop ok total files d0) = (r1 ++ (f, ft) :: r2)%list ->
  match ft with
  | Untouched => reached total (d0 + total_size (deleted r1)) = true
  | Deleted =>
      reached total (d0 + total_size (deleted r1)) = false
      /\ ok (fpath f) = true
  | DeleteFailed =>
      reached total (d0 + total_size (deleted r1)) = false
      /\ ok (fpath f) = false
  end.
Proof.
  revert d0 r1. induction files as [|g rest IH]; intros d0 r1;
    cbn [delete_loop].
  - by destruct r1.
  - destruct (reached total d0) eqn:E.
    + cbn [fst]. intros H.
      change ((g, Untouched) :: map (fun g0 => (g0, Untouched)) rest)
        with (map (fun g0 => (g0, Untouched)) (g :: rest)) in H.
      apply map_eq_app in H as (l1 & l2 & _ & <- & H2).
      destruct l2 as [|y l2]; [done|]. cbn [map] in H2.
      injection H2 as <- <- _.
      by rewrite deleted_untouched_all, Z.add_0_r.
    + destruct (ok (fpath g)) eqn:Eok.
      * specialize (IH (d0 + fsize g)).
        destruct (delete_loop ok total rest (d0 + fsize g)) as [fates d].
        cbn [fst] in *. destruct r1 as [|e r1].
        -- intros [= <- <- _]. simpl. by rewrite Z.add_0_r.
        -- intros [= <- H]. specialize (IH _ H).
           rewrite deleted_cons, total_size_cons.
           by rewrite Z.add_assoc.
      * specialize (IH d0).
        destruct (delete_loop ok total rest d0) as [fates d].
        cbn [fst] in *. destruct r1 as [|e r1].
        -- intros [= <- <- _]. simpl. by rewrite Z.add_0_r.
        -- intros [= <- H]. specialize (IH _ H). by rewrite deleted_cons.
Qed.

Lemma in_remaining f ft r :
  In (f, ft) r -> ft <> Deleted -> In f (remaining r).
Proof.
  intros Hin Hft. unfold remaining. apply in_map_iff. exists (f, ft).
  split; [done|]. apply filter_In. split; [done|]. by destruct ft.
Qed.

(** C4, amended.  When the files under the cache root total more than
    the budget (and less than 2^50 bytes, where the double arithmetic of
    the pass decides as exact arithmetic does), the pass goes through the
    files in non-decreasing order of modification time (files with equal
    times in the order of the walk); the files it deletes are therefore
    in non-decreasing, not strictly ascending, order.  A file is left
    untouched exactly when the bytes deleted before its turn have reached
    [total - 0.9 * budget]; otherwise it is unlinked, it is deleted when
    the unlink succeeds, and when the unlink fails it is skipped, stays
    on disk and does not count as deleted.  No deleted file is newer than
    a file left untouched.  What stays on disk is the total minus the
    bytes deleted, and if no unlink fails it is at most 90% of the
    budget, hence within the budget. *)
Theorem sweep_trims_oldest_first ok dir root total files :
  traverseDir dir root = Some (total, files) ->
  total > maxBytes ->
  total < 2 ^ 50 ->
  let r := fst (sweep ok dir root) in
  total = total_size files
  /\ Permutation (map fst r) files
  /\ StronglySorted older (map fst r)
  /\ (forall t, at_time t (map fst r) = at_time t files)
  /\ (exists attempted rest,
        r = (attempted ++ map (fun g => (g, Untouched)) rest)%list
        /\ Forall (fun e => snd e <> Untouched) attempted)
  /\ (forall r1 f ft r2, r = (r1 ++ (f, ft) :: r2)%list ->
      match ft with
      | Untouched =>
          10 * total - 9 * maxBytes <= 10 * total_size (deleted r1)
          /\ In f (remaining r)
      | Deleted =>
          10 * total_size (deleted r1) < 10 * total - 9 * maxBytes
          /\ ok (fpath f) = true
      | DeleteFailed =>
          10 * total_size (deleted r1) < 10 * total - 9 * maxBytes
          /\ ok (fpath f) = false /\ In f (remaining r)
      end)
  /\ StronglySorted older (deleted r)
  /\ snd (sweep ok dir root) = total_size (deleted r)
  /\ (forall pre f post, deleted r = (pre ++ f :: post)%list ->
      10 * total_size pre < 10 * total - 9 * maxBytes)
  /\ (untouched r <> [] ->
      10 * total - 9 * maxBytes <= 10 * total_size (deleted r))
  /\ (forall d u, In d (deleted r) -> In u (untouched r) -> older d u)
  /\ total_size (remaining r) = total - total_size (deleted r)
  /\ ((forall f, In f files -> ok (fpath f) = true) ->
      10 * total_size (remaining r) <= 9 * maxBytes
      /\ total_size (remaining r) <= maxBytes).
Proof.
  intros Ht Hgt Hlt r. subst r. rewrite (sweep_over_budget _ _ _ _ _ Ht Hgt).
  assert (Hex : forall d, reached total d
                          = (10 * total - 9 * maxBytes <=? 10 * d)).
  { intros d. apply reached_exact; lia. }
  pose proof (traverseDir_total _ _ _ _ Ht) as Htot.
  pose proof (delete_loop_files ok total (sort files) 0) as Hfiles.
  pose proof (delete_loop_size ok total (sort files) 0) as Hsize.
  rewrite Z.add_0_l in Hsize.
  assert (Hrem : total_size (remaining (fst (delete_loop ok total (sort files) 0)))
                 = total - total_size (deleted (fst (delete_loop ok total
                                                       (sort files) 0)))).
  { pose proof (total_size_split (fst (delete_loop ok total (sort files) 0)))
      as Hsplit.
    rewrite Hfiles, (total_size_perm _ _ (sort_perm files)) in Hsplit. lia. }
  destruct (delete_loop_split ok total (sort files) 0)
    as (att & rest & Hr & Hatt & Hsorted & Hrest).
  split; [done|]. split; [rewrite Hfiles; apply sort_perm|].
  split; [rewrite Hfiles; apply sort_sorted|].
  split; [intros t; rewrite Hfiles; apply sort_stable|].
  split; [by exists att, rest|].
  split.
  { intros r1 f ft r2 Hsp.
    pose proof (delete_loop_fates ok total (sort files) 0 r1 f ft r2 Hsp) as Hf.
    rewrite Z.add_0_l, Hex in Hf.
    assert (In (f, ft) (fst (delete_loop ok total (sort files) 0))) as Hin.
    { rewrite Hsp. apply in_or_app. right. by left. }
    destruct ft.
    - destruct Hf as [Hf Hok]. split; [|done]. apply Z.leb_gt in Hf. lia.
    - destruct Hf as [Hf Hok]. split; [apply Z.leb_gt in Hf; lia|].
      split; [done|]. by eapply in_remaining.
    - split; [apply Z.leb_le in Hf; lia|]. by eapply in_remaining. }
  split; [apply deleted_sorted; rewrite Hfiles; apply sort_sorted|].
  split; [done|]. split.
  { intros pre f post H.
    apply (delete_loop_stops ok total (sort files) 0) in H.
    rewrite Z.add_0_l, Hex in H. apply Z.leb_gt in H. lia. }
  split.
  { intros Hu. rewrite <- Hsize.
    assert (reached total (snd (delete_loop ok total (sort files) 0)) = true)
      as H.
    { apply Hrest. intros ->.
      apply Hu. rewrite Hr. unfold untouched. rewrite with_fate_app.
      fold (untouched att). by rewrite (untouched_attempted att Hatt). }
    rewrite Hex in H. apply Z.leb_le in H. lia. }
  split.
  { intros d u Hd Hu. rewrite Hr in Hd, Hu.
    unfold deleted, untouched in Hd, Hu. rewrite with_fate_app in Hd, Hu.
    fold (deleted att) in Hd. fold (untouched att) in Hu.
    fold (deleted (map (fun g => (g, Untouched)) rest)) in Hd.
    fold (untouched (map (fun g => (g, Untouched)) rest)) in Hu.
    rewrite deleted_untouched_all, app_nil_r in Hd.
    rewrite (untouched_attempted att Hatt), untouched_untouched_all in Hu.
    simpl in Hu.
    apply (sorted_app_older (map fst att) rest).
    - rewrite <- Hsorted. apply sort_sorted.
    - by eapply with_fate_in.
    - done. }
  split; [done|].
  intros Hok.
  assert (10 * total_size (remaining (fst (delete_loop ok total (sort files) 0)))
          <= 9 * maxBytes) as H90.
  { destruct (delete_loop_no_failure ok total (sort files) 0) as [H|H].
    - intros f Hf. apply Hok. by apply (Permutation_in _ (sort_perm files)).
    - rewrite Hex in H. apply Z.leb_le in H. rewrite Hrem.
      rewrite Hsize in H. lia.
    - rewrite H. simpl. unfold maxBytes, MAX_CACHE_SIZE_MB. lia. }
  split; [done|]. unfold maxBytes, MAX_CACHE_SIZE_MB in *. lia.
Qed.

Lemma sweep_trims_oldest_first_witness :
  traverseDir ["cache"] (Some Scenario.big_dir)
  = Some (2357198848,
          [MkFile ["cache"; "a.jpg"] 104857600 1;
           MkFile ["cache"; "b.jpg"] 104857600 1;
           MkFile ["cache"; "c.jpg"] 2147483648 2])
  /\ 2357198848 > maxBytes
  /\ 2357198848 < 2 ^ 50
  /\ total_size (remaining (fst (sweep (fun _ => true) ["cache"]
                                       (Some Scenario.big_dir))))
     <= maxBytes.
Proof.
  assert (Ht : traverseDir ["cache"] (Some Scenario.big_dir)
               = Some (2357198848,
                       [MkFile ["cache"; "a.jpg"] 104857600 1;
                        MkFile ["cache"; "b.jpg"] 104857600 1;
                        MkFile ["cache"; "c.jpg"] 2147483648 2]))
    by reflexivity.
  assert (Hgt : 2357198848 > maxBytes) by reflexivity.
  assert (Hlt : 2357198848 < 2 ^ 50) by reflexivity.
  split; [exact Ht|]. split; [exact Hgt|]. split; [exact Hlt|].
  destruct (sweep_trims_oldest_first (fun _ => true) ["cache"]
              (Some Scenario.big_dir) _ _ Ht Hgt Hlt)
    as (_ & _ & _ & _ & _ & _ & _ & _ & _ & _ & _ & _ & H).
  apply H. intros f _. reflexivity.
Defined.

(** C4, as stated, fails on [big_dir] when [c.jpg] cannot be unlinked:
    the total exceeds the budget, the two files deleted have the same
    modification time, so the order of deletion is not strictly
    ascending, and the 2 GiB left on disk exceed the budget. *)
Lemma sweep_ties_and_failed_unlink :
  let r := fst (sweep Scenario.c_locked ["cache"] (Some Scenario.big_dir)) in
  (exists total files,
      traverseDir ["cache"] (Some Scenario.big_dir) = Some (total, files)
      /\ total > maxBytes)
  /\ map time (deleted r) = [1; 1]
  /\ ~ StronglySorted strictly_older (deleted r)
  /\ ~ total_size (remaining r) <= maxBytes.
Proof.
  cbn zeta.
  assert (Hr : fst (sweep Scenario.c_locked ["cache"] (Some Scenario.big_dir))
               = [(MkFile ["cache"; "a.jpg"] 104857600 1, Deleted);
                  (MkFile ["cache"; "b.jpg"] 104857600 1, Deleted);
                  (MkFile ["cache"; "c.jpg"] 2147483648 2, DeleteFailed)])
    by (vm_compute; reflexivity).
  rewrite Hr. split.
  { eexists _, _. split; [reflexivity|]. reflexivity. }
  split; [reflexivity|]. split.
  - intros Hs. apply StronglySorted_inv in Hs as [_ Hs].
    apply Forall_inv in Hs. unfold strictly_older in Hs. simpl in Hs. lia.
  - vm_compute. intros H. by apply H.
Qed.

End SweepFacts.

(** ** The TMDB proxy *)

Module ProxyFacts.
Import Cache CacheFacts Proxy.

(** *** The order of [sort] *)

Lemma ascii_compare_refl c : Ascii.compare c c = Eq.
Proof. unfold Ascii.compare. apply N.compare_refl. Qed.

Lemma string_leb_trans s1 s2 s3 :
  String.leb s1 s2 = true -> String.leb s2 s3 = true ->
  String.leb s1 s3 = true.
Proof.
  unfold String.leb. revert s2 s3.
  induction s1 as [|c1 s1 IH]; intros [|c2 s2] [|c3 s3]; simpl; try done.
  destruct (Ascii.compare c1 c2) eqn:E12.
  - apply Ascii.compare_eq_iff in E12 as ->.
    destruct (Ascii.compare c2 c3) eqn:E23; try done. apply IH.
  - destruct (Ascii.compare c2 c3) eqn:E23; try done.
    + apply Ascii.compare_eq_iff in E23 as <-. by rewrite E12.
    + unfold Ascii.compare in *.
      rewrite N.compare_lt_iff in E12, E23.
      assert (N_of_ascii c1 < N_of_ascii c3)%N as H by lia.
      apply N.compare_lt_iff in H. by rewrite H.
  - done.
Qed.

Lemma keys_insert_perm k l : Permutation (insert k l) (k :: l).
Proof.
  induction l as [|k' l IH]; simpl; [done|].
  destruct (String.leb k k'); [done|]. rewrite IH. apply perm_swap.
Qed.

Lemma keys_sort_perm l : Permutation (sort l) l.
Proof.
  induction l as [|k l IH]; simpl; [done|].
  rewrite keys_insert_perm. by constructor.
Qed.

Lemma keys_insert_sorted k l :
  StronglySorted (fun a b => String.leb a b = true) l ->
  StronglySorted (fun a b => String.leb a b = true) (insert k l).
Proof.
  induction l as [|k' l IH]; simpl; intros Hs.
  - repeat constructor.
  - apply StronglySorted_inv in Hs as [Hl Hk'].
    destruct (String.leb k k') eqn:E.
    + constructor; [by constructor|]. constructor; [done|].
      eapply List.Forall_impl; [|exact Hk']. intros a Ha.
      by eapply string_leb_trans.
    + constructor; [by apply IH|].
      rewrite List.Forall_forall in *. intros a Ha.
      apply (Permutation_in _ (keys_insert_perm k l)) in Ha as [<-|Ha].
      * destruct (String.leb_total k k') as [H|H]; [congruence | done].
      * by apply Hk'.
Qed.

Lemma keys_sort_sorted l :
  StronglySorted (fun a b => String.leb a b = true) (sort l).
Proof.
  induction l as [|k l IH]; simpl; [constructor|]. by apply keys_insert_sorted.
Qed.

(** Two sorted arrangements of the same strings are the same list. *)
Lemma sorted_perm_eq l1 l2 :
  StronglySorted (fun a b => String.leb a b = true) l1 ->
  StronglySorted (fun a b => String.leb a b = true) l2 ->
  Permutation l1 l2 -> l1 = l2.
Proof.
  revert l2. induction l1 as [|x l1 IH]; intros l2 H1 H2 Hp.
  - by apply Permutation_nil in Hp.
  - destruct l2 as [|y l2].
    { symmetry in Hp. by apply Permutation_nil in Hp. }
    apply StronglySorted_inv in H1 as [H1 Hx].
    apply StronglySorted_inv in H2 as [H2 Hy].
    rewrite List.Forall_forall in Hx, Hy.
    assert (x = y) as ->.
    { assert (In x (y :: l2)) as [->|Hin]
        by (apply (Permutation_in _ Hp); by left); [done|].
      assert (In y (x :: l1)) as [->|Hin']
        by (apply (Permutation_in _ (Permutation_sym Hp)); by left); [done|].
      apply String.leb_antisym; [by apply Hx | by apply Hy]. }
    f_equal. apply IH; [done | done |]. by apply Permutation_cons_inv in Hp.
Qed.

Lemma sort_perm_eq l1 l2 : Permutation l1 l2 -> sort l1 = sort l2.
Proof.
  intros Hp. apply sorted_perm_eq; [apply keys_sort_sorted | apply keys_sort_sorted |].
  by rewrite !keys_sort_perm.
Qed.

(** *** Queries as objects *)

Lemma lookup_in k v (q : query) : lookup k q = Some v -> In (k, v) q.
Proof.
  induction q as [|[k' v'] q IH]; simpl; [done|].
  destruct (String.eqb k k') eqn:E.
  - apply String.eqb_eq in E as ->. intros [= ->]. by left.
  - intros H. right. by apply IH.
Qed.

Lemma lookup_none k (q : query) : lookup k q = None -> ~ In k (map fst q).
Proof.
  induction q as [|[k' v'] q IH]; simpl; [by intros _ []|].
  destruct (String.eqb k k') eqn:E; [done|].
  apply String.eqb_neq in E. intros H [Heq|Hin]; [congruence|]. by apply IH.
Qed.

Lemma in_lookup k v (q : query) :
  List.NoDup (map fst q) -> In (k, v) q -> lookup k q = Some v.
Proof.
  induction q as [|[k' v'] q IH]; simpl; [done|].
  intros Hnd [[= -> ->]|Hin].
  - by rewrite String.eqb_refl.
  - apply NoDup_cons_iff in Hnd as [Hk' Hnd].
    destruct (String.eqb k k') eqn:E; [|by apply IH].
    apply String.eqb_eq in E as ->. destruct Hk'.
    apply in_map_iff. by exists (k', v).
Qed.

(** Which value a key has does not depend on the order of the
    properties. *)
Lemma lookup_perm k (q1 q2 : query) :
  List.NoDup (map fst q1) -> Permutation q1 q2 -> lookup k q1 = lookup k q2.
Proof.
  intros Hnd Hp.
  assert (List.NoDup (map fst q2)) as Hnd2.
  { eapply Permutation_NoDup; [|exact Hnd]. by apply Permutation_map. }
  destruct (lookup k q1) as [v|] eqn:E1.
  - symmetry. apply in_lookup; [done|].
    apply (Permutation_in _ Hp). by apply lookup_in.
  - destruct (lookup k q2) as [v|] eqn:E2; [|done].
    apply lookup_none in E1. destruct E1.
    apply lookup_in in E2. apply in_map_iff. exists (k, v). split; [done|].
    by apply (Permutation_in _ (Permutation_sym Hp)).
Qed.

Lemma params_perm (q1 q2 : query) :
  Permutation q1 q2 -> Permutation (params q1) (params q2).
Proof.
  unfold params. induction 1 as [|e l1 l2 _ IH|e1 e2 l|l1 l2 l3 _ IH1 _ IH2];
    simpl.
  - done.
  - destruct (negb _); [by constructor | done].
  - destruct (negb _), (negb _); try done. apply perm_swap.
  - by rewrite IH1.
Qed.

Lemma params_nodup (q : query) :
  List.NoDup (map fst q) -> List.NoDup (map fst (params q)).
Proof.
  unfold params. induction q as [|[k v] q IH]; simpl; [done|].
  intros Hnd. apply NoDup_cons_iff in Hnd as [Hk Hnd].
  destruct (negb (String.eqb k "path")); simpl; [|by apply IH].
  constructor; [|by apply IH]. intros Hin. apply Hk.
  apply in_map_iff in Hin as (e & <- & He). apply filter_In in He as [He _].
  apply in_map_iff. by exists e.
Qed.

Lemma sortedParams_perm (ps1 ps2 : query) :
  List.NoDup (map fst ps1) -> Permutation ps1 ps2 ->
  sortedParams ps1 = sortedParams ps2.
Proof.
  intros Hnd Hp. unfold sortedParams.
  rewrite (sort_perm_eq (map fst ps1) (map fst ps2))
    by (by apply Permutation_map).
  f_equal. apply map_ext. intros k. by rewrite (lookup_perm k ps1 ps2).
Qed.

Lemma proxy_start_perm cm apiKey (q1 q2 : query) now :
  List.NoDup (map fst q1) -> Permutation q1 q2 ->
  proxy_start cm apiKey q1 now = proxy_start cm apiKey q2 now.
Proof.
  intros Hnd Hp. unfold proxy_start, tmdbPath, cacheKey.
  rewrite (lookup_perm "path" q1 q2) by done.
  rewrite (sortedParams_perm (params q1) (params q2));
    [done | by apply params_nodup | by apply params_perm].
Qed.

(** The proxy treats two queries that differ only in the order of their
    parameters alike: same checks, same cache key, same answer. *)
Theorem proxy_ignores_parameter_order cm apiKey (q1 q2 : query) now :
  List.NoDup (map fst q1) -> Permutation q1 q2 ->
  proxy_start cm apiKey q1 now = proxy_start cm apiKey q2 now
  /\ cacheKey (default "" (tmdbPath q1)) (params q1)
     = cacheKey (default "" (tmdbPath q2)) (params q2).
Proof.
  intros Hnd Hp. split; [by apply proxy_start_perm|].
  unfold tmdbPath, cacheKey. rewrite (lookup_perm "path" q1 q2) by done.
  rewrite (sortedParams_perm (params q1) (params q2));
    [done | by apply params_nodup | by apply params_perm].
Qed.

Lemma proxy_ignores_parameter_order_witness :
  List.NoDup (map fst [("path", "/movie/1"); ("page", "2"); ("append", "x")])
  /\ proxy_start (new TJson) (Some "k")
                 [("path", "/movie/1"); ("page", "2"); ("append", "x")] 0
     = AwaitAxios "tmdb_proxy_/movie/1_append=x&page=2"
  /\ proxy_start (new TJson) (Some "k")
                 [("append", "x"); ("page", "2"); ("path", "/movie/1")] 0
     = AwaitAxios "tmdb_proxy_/movie/1_append=x&page=2".
Proof.
  assert (Hnd : List.NoDup (map fst [("path", "/movie/1"); ("page", "2");
                                     ("append", "x")])).
  { repeat constructor; simpl; intuition discriminate. }
  assert (Hp : Permutation [("path", "/movie/1"); ("page", "2"); ("append", "x")]
                           [("append", "x"); ("page", "2"); ("path", "/movie/1")]).
  { apply Permutation_rev. }
  split; [exact Hnd|]. split; [reflexivity|].
  rewrite <- (proj1 (proxy_ignores_parameter_order (new TJson) (Some "k")
                       _ _ 0 Hnd Hp)).
  reflexivity.
Defined.

(** Persisted backend: the answer to a proxy request is kept for ten
    hours, and any request for the same path and the same parameters, in
    whatever order, is answered with it in that time without going
    upstream. *)
Theorem proxy_answer_reused cm apiKey (q1 q2 : query) key t0 t1 data now :
  type cm = TJson ->
  List.NoDup (map fst q1) -> Permutation q1 q2 ->
  proxy_start cm apiKey q1 t0 = AwaitAxios key ->
  truthy data = true ->
  now < t1 + 36000000 ->
  proxy_resume cm key t1 (ProxyOk data)
  = (set cm CDetail key data 36000 t1, Http 200 data)
  /\ proxy_start (set cm CDetail key data 36000 t1) apiKey q2 now
     = Answer (Http 200 data).
Proof.
  intros Ht Hnd Hp Hstart Hdata Hlt. split; [done|].
  rewrite <- (proxy_start_perm _ apiKey q1 q2 now Hnd Hp).
  unfold proxy_start in *.
  destruct (tmdbPath q1) as [path|]; [|done].
  destruct (String.eqb path ""); [done|].
  destruct (String.eqb (default "" apiKey) ""); [done|].
  destruct (truthy (get cm CDetail _ t0)); [done|].
  injection Hstart as <-.
  rewrite json_get_set; [by rewrite Hdata | done | lia].
Qed.

Lemma proxy_answer_reused_witness :
  proxy_start (set (new TJson) CDetail "tmdb_proxy_/movie/1_page=2"
                   (JObj [("id", JNum 1)]) 36000 5)
              (Some "k") [("page", "2"); ("path", "/movie/1")] 100
  = Answer (Http 200 (JObj [("id", JNum 1)])).
Proof.
  assert (Hnd : List.NoDup (map fst [("path", "/movie/1"); ("page", "2")])).
  { repeat constructor; simpl; intuition discriminate. }
  assert (Hp : Permutation [("path", "/movie/1"); ("page", "2")]
                           [("page", "2"); ("path", "/movie/1")]).
  { apply perm_swap. }
  exact (proj2 (proxy_answer_reused (new TJson) (Some "k") _ _
                  "tmdb_proxy_/movie/1_page=2" 0 5 (JObj [("id", JNum 1)]) 100
                  eq_refl Hnd Hp eq_refl eq_refl eq_refl)).
Defined.

End ProxyFacts.

(** ** The site directory *)

Module DirectoryFacts.
Import Directory.

(** A remote configuration that has been loaded is served from memory,
    with no request, to every [/api/sites] call made less than five
    minutes after the time read before it was fetched. *)
Theorem remote_config_reused st url local local' t0 d now :
  url <> "" -> valid_config d = true -> now - t0 < 300000 ->
  sites_resume st t0 local (AxiosOk d) = (Remote (Some d) t0, d)
  /\ sites_start (Remote (Some d) t0) url local' now = SitesAnswer d.
Proof.
  intros Hurl Hv Hlt. split.
  - unfold sites_resume. by rewrite Hv.
  - unfold sites_start. apply String.eqb_neq in Hurl. rewrite Hurl. simpl.
    destruct (now - t0 <? REMOTE_DB_CACHE_TTL) eqn:E; [done|].
    unfold REMOTE_DB_CACHE_TTL in E. lia.
Qed.

Lemma remote_config_reused_witness :
  "https://cfg.example/db.json" <> ""
  /\ sites_start (Remote (Some (JObj [("sites", JArr [])])) 1000)
                 "https://cfg.example/db.json" JNull 200000
     = SitesAnswer (JObj [("sites", JArr [])]).
Proof.
  assert (H : "https://cfg.example/db.json" <> "") by discriminate.
  split; [exact H|].
  exact (proj2 (remote_config_reused Directory.initial _ JNull JNull 1000
                  (JObj [("sites", JArr [])]) 200000 H eq_refl eq_refl)).
Defined.

(** Once a remote configuration [d] is loaded it is never dropped.  When
    a later refresh fails, or yields something that is not a
    configuration, [/api/sites] answers with the local file, the stored
    configuration and its time stay as they were, and [getDB] (the
    directory the search and detail handlers use) still answers [d],
    however old it is. *)
Theorem failed_refresh_keeps_remote_config st now local r d :
  remoteDbCache st = Some d ->
  (r = AxiosError \/ exists d', r = AxiosOk d' /\ valid_config d' = false) ->
  sites_resume st now local r = (st, local)
  /\ getDB (fst (sites_resume st now local r)) local = d.
Proof.
  intros Hc Hr.
  assert (sites_resume st now local r = (st, local)) as H.
  { destruct Hr as [->|(d' & -> & Hv)]; [done|].
    unfold sites_resume. by rewrite Hv. }
  split; [done|]. rewrite H. unfold getDB. simpl. by rewrite Hc.
Qed.

Lemma failed_refresh_keeps_remote_config_witness :
  sites_resume (Remote (Some (JObj [("sites", JArr [JStr "remote"])])) 0)
               900000 (JObj [("sites", JArr [JStr "local"])]) AxiosError
  = (Remote (Some (JObj [("sites", JArr [JStr "remote"])])) 0,
     JObj [("sites", JArr [JStr "local"])])
  /\ getDB (Remote (Some (JObj [("sites", JArr [JStr "remote"])])) 0)
           (JObj [("sites", JArr [JStr "local"])])
     = JObj [("sites", JArr [JStr "remote"])].
Proof.
  destruct (failed_refresh_keeps_remote_config
              (Remote (Some (JObj [("sites", JArr [JStr "remote"])])) 0)
              900000 (JObj [("sites", JArr [JStr "local"])]) AxiosError
              (JObj [("sites", JArr [JStr "remote"])])
              eq_refl (or_introl eq_refl)) as [H1 H2].
  split; [exact H1|]. rewrite H1 in H2. exact H2.
Defined.

(** Whatever the requests and their outcomes, [getDB] answers with the
    local file only as long as no remote configuration was ever loaded. *)
Lemma remote_config_monotone st now local r :
  is_Some (remoteDbCache st) ->
  is_Some (remoteDbCache (fst (sites_resume st now local r))).
Proof.
  intros H. unfold sites_resume. destruct r as [|data]; [done|].
  by destruct (valid_config data).
Qed.

End DirectoryFacts.

(** ** Access password *)

Module AuthFacts.
Import Auth.

Section auth.

Variable sha256 : string -> string.
Variable ACCESS_PASSWORD : string.

Hypothesis configured : ACCESS_PASSWORD <> "".
Hypothesis digest_nonempty : sha256 ACCESS_PASSWORD <> "".

Lemma PASSWORD_HASH_configured :
  PASSWORD_HASH sha256 ACCESS_PASSWORD = sha256 ACCESS_PASSWORD.
Proof.
  unfold PASSWORD_HASH. apply String.eqb_neq in configured.
  by rewrite configured.
Qed.

(** With a password configured, the right password alone is accepted and
    the answer carries the stored hash; that hash, sent back as
    [passwordHash], is accepted on its own, whatever [password] is sent
    with it. *)
Theorem login_then_hash_accepted :
  verify sha256 ACCESS_PASSWORD (Some ACCESS_PASSWORD) None
  = SuccessToken "session_token_placeholder"
                 (PASSWORD_HASH sha256 ACCESS_PASSWORD)
  /\ forall password,
       verify sha256 ACCESS_PASSWORD password
              (Some (PASSWORD_HASH sha256 ACCESS_PASSWORD))
       = SuccessToken "session_token_placeholder"
                      (PASSWORD_HASH sha256 ACCESS_PASSWORD).
Proof.
  rewrite PASSWORD_HASH_configured.
  pose proof configured as Hc. pose proof digest_nonempty as Hd.
  apply String.eqb_neq in Hc, Hd.
  unfold verify, nonempty. rewrite Hc, Hd, PASSWORD_HASH_configured.
  by rewrite String.eqb_refl.
Qed.

Lemma verify_sound password passwordHash :
  verify sha256 ACCESS_PASSWORD password passwordHash <> Failure ->
  nonempty passwordHash = Some (sha256 ACCESS_PASSWORD)
  \/ (nonempty passwordHash = None
      /\ exists pw, nonempty password = Some pw
                    /\ sha256 pw = sha256 ACCESS_PASSWORD).
Proof.
  pose proof configured as Hc. apply String.eqb_neq in Hc.
  unfold verify. rewrite Hc, PASSWORD_HASH_configured.
  destruct (nonempty passwordHash) as [h|].
  - destruct (String.eqb h (sha256 ACCESS_PASSWORD)) eqn:E; [|done].
    apply String.eqb_eq in E as ->. by left.
  - destruct (nonempty password) as [pw|]; [|done].
    destruct (String.eqb (sha256 pw) (sha256 ACCESS_PASSWORD)) eqn:E; [|done].
    apply String.eqb_eq in E. right. split; [done|]. by exists pw.
Qed.

(** With a password configured, a request is accepted only if its
    [passwordHash] is the stored hash or, when it sends no
    [passwordHash], if the digest of its [password] is the stored hash.
    In particular a wrong non-empty [passwordHash] is refused even
    together with the right password. *)
Theorem verify_accepts_only_the_hash password passwordHash :
  verify sha256 ACCESS_PASSWORD password passwordHash <> Failure ->
  (nonempty passwordHash = Some (sha256 ACCESS_PASSWORD)
   \/ (nonempty passwordHash = None
       /\ exists pw, nonempty password = Some pw
                     /\ sha256 pw = sha256 ACCESS_PASSWORD))
  /\ forall h, passwordHash = Some h -> h <> "" ->
               h = sha256 ACCESS_PASSWORD.
Proof.
  intros H. pose proof (verify_sound _ _ H) as Hs. split; [done|].
  intros h -> Hne. unfold nonempty in Hs. apply String.eqb_neq in Hne.
  rewrite Hne in Hs. by destruct Hs as [[= ->]|[[=] _]].
Qed.

Lemma wrong_hash_beats_right_password h :
  h <> "" -> h <> sha256 ACCESS_PASSWORD ->
  verify sha256 ACCESS_PASSWORD (Some ACCESS_PASSWORD) (Some h) = Failure.
Proof.
  intros Hne Hh.
  destruct (verify sha256 ACCESS_PASSWORD (Some ACCESS_PASSWORD) (Some h))
    eqn:E; [| |done].
  - assert (Hnf : verify sha256 ACCESS_PASSWORD (Some ACCESS_PASSWORD) (Some h)
                  <> Failure) by (by rewrite E).
    apply verify_sound in Hnf. unfold nonempty in Hnf.
    apply String.eqb_neq in Hne. rewrite Hne in Hnf.
    destruct Hnf as [[= ->]|[[=] _]]. done.
  - assert (Hnf : verify sha256 ACCESS_PASSWORD (Some ACCESS_PASSWORD) (Some h)
                  <> Failure) by (by rewrite E).
    apply verify_sound in Hnf. unfold nonempty in Hnf.
    apply String.eqb_neq in Hne. rewrite Hne in Hnf.
    destruct Hnf as [[= ->]|[[=] _]]. done.
Qed.

End auth.

Lemma login_then_hash_accepted_witness :
  "secret" <> "" /\ String.append "#" "secret" <> ""
  /\ verify (String.append "#") "secret" None (Some "#secret")
     = SuccessToken "session_token_placeholder" "#secret".
Proof.
  assert (H1 : "secret" <> "") by discriminate.
  assert (H2 : String.append "#" "secret" <> "") by discriminate.
  split; [exact H1|]. split; [exact H2|].
  exact (proj2 (login_then_hash_accepted (String.append "#") "secret" H1 H2)
               None).
Defined.

Lemma verify_accepts_only_the_hash_witness :
  verify (String.append "#") "secret" (Some "secret") None <> Failure
  /\ (nonempty None = Some (String.append "#" "secret")
      \/ (nonempty None = None
          /\ exists pw, nonempty (Some "secret") = Some pw
                        /\ String.append "#" pw = String.append "#" "secret")).
Proof.
  assert (H1 : "secret" <> "") by discriminate.
  assert (H : verify (String.append "#") "secret" (Some "secret") None
              <> Failure) by discriminate.
  split; [exact H|].
  exact (proj1 (verify_accepts_only_the_hash (String.append "#") "secret" H1
                  (Some "secret") None H)).
Defined.

End AuthFacts.

(** ** The cache: entries do not interfere *)

Module CacheFrameFacts.
Import Cache CacheFacts.

Lemma get_set_other cm c key v ttl t0 c' key' now :
  c <> c' \/ key <> key' ->
  get (set cm c key v ttl t0) c' key' now = get cm c' key' now.
Proof.
  intros Hne. destruct (stores (type cm)) eqn:Hs.
  - unfold get. rewrite type_set.
    assert (store (set cm c key v ttl t0) c' !! key' = store cm c' !! key')
      as ->; [|done].
    destruct c, c'; try (by rewrite store_set_other);
      (destruct Hne as [Hne|Hne]; [done|]);
      rewrite store_set by done; by rewrite lookup_insert_ne.
  - by rewrite set_disabled.
Qed.

(** A [set] under a key other than [__proto__] changes what [get]
    returns for its own category and key only: every other entry, of
    either category, reads as before, on every backend and at every
    time. *)
Theorem set_leaves_other_entries cm c key v ttl t0 c' key' :
  key <> proto_key ->
  c <> c' \/ key <> key' ->
  forall now, get (set cm c key v ttl t0) c' key' now = get cm c' key' now.
Proof.
  intros _ Hne now. destruct (stores (type cm)) eqn:Hs.
  - unfold get. rewrite type_set.
    assert (store (set cm c key v ttl t0) c' !! key' = store cm c' !! key')
      as ->; [|done].
    destruct c, c'; try (by rewrite store_set_other);
      (destruct Hne as [Hne|Hne]; [done|]);
      rewrite store_set by done; by rewrite lookup_insert_ne.
  - by rewrite set_disabled.
Qed.

Lemma set_leaves_other_entries_witness :
  "a_x" <> proto_key
  /\ (CSearch <> CDetail \/ "a_x" <> "a_x")
  /\ get (set (new TJson) CSearch "a_x" (JNum 1) 600 0) CDetail "a_x" 5
     = JNull.
Proof.
  assert (Hp : "a_x" <> proto_key) by discriminate.
  assert (H : CSearch <> CDetail \/ "a_x" <> "a_x") by (left; discriminate).
  split; [exact Hp|]. split; [exact H|].
  rewrite (set_leaves_other_entries (new TJson) CSearch "a_x" (JNum 1) 600 0
             CDetail "a_x" Hp H 5).
  reflexivity.
Defined.

End CacheFrameFacts.

(** ** Streaming search: items, repeats and the length of a run *)

Module StreamMoreFacts.
Import Cache Search SearchObs RunObs CacheFacts StreamFacts.

Lemma assoc_set_same k v fs : assoc k (assoc_set k v fs) = Some v.
Proof.
  induction fs as [|[k' v'] fs IH]; simpl.
  - by rewrite String.eqb_refl.
  - destruct (String.eqb k k') eqn:E; simpl; [by rewrite String.eqb_refl|].
    by rewrite E.
Qed.

Lemma assoc_set_other k k' v fs :
  k <> k' -> assoc k (assoc_set k' v fs) = assoc k fs.
Proof.
  intros Hne. apply String.eqb_neq in Hne.
  induction fs as [|[k1 v1] fs IH]; simpl.
  - by rewrite Hne.
  - destruct (String.eqb k' k1) eqn:E; simpl.
    + apply String.eqb_eq in E as <-. by rewrite Hne.
    + by rewrite IH.
Qed.

Lemma decorate_tagged s item : tagged s (decorate s item).
Proof.
  unfold tagged, decorate, get_prop. split.
  - by rewrite assoc_set_other, assoc_set_same.
  - by rewrite assoc_set_same.
Qed.

Lemma map_item_shape s item o :
  map_item s item = Some o ->
  exists a b c d e f g h i,
    o = JObj [("vod_id", a); ("vod_name", b); ("vod_pic", c);
              ("vod_remarks", d); ("vod_year", e); ("type_name", f);
              ("vod_content", g); ("vod_play_from", h); ("vod_play_url", i);
              ("site_key", JStr (Site.key s));
              ("site_name", JStr (Site.name s))].
Proof.
  unfold map_item. destruct item; simpl; try done; intros [= <-];
    by eexists _, _, _, _, _, _, _, _, _.
Qed.

Lemma map_item_tagged s item o : map_item s item = Some o -> tagged s o.
Proof.
  intros H. apply map_item_shape in H as (a&b&c&d&e&f&g&h&i&->). by split.
Qed.

(** Decorating an item the streaming path has mapped changes nothing. *)
Lemma decorate_map_item s item o : map_item s item = Some o -> decorate s o = o.
Proof.
  intros H. apply map_item_shape in H as (a&b&c&d&e&f&g&h&i&->). done.
Qed.

Lemma map_throw_forall {A B} (f : A -> option B) (P : B -> Prop) xs ys :
  (forall x y, f x = Some y -> P y) ->
  map_throw f xs = Some ys -> Forall P ys.
Proof.
  intros Hf. revert ys. induction xs as [|x xs IH]; simpl; intros ys.
  - intros [= <-]. constructor.
  - destruct (f x) as [y|] eqn:E; [|done].
    destruct (map_throw f xs) as [ys'|]; [|done]. intros [= <-].
    constructor; [by eapply Hf | by apply IH].
Qed.

Lemma map_list_forall f (P : jsval -> Prop) data l :
  (forall x y, f x = Some y -> P y) ->
  map_list f data = Some l -> Forall P l.
Proof.
  intros Hf. unfold map_list. destruct (get_prop data "list") as [v|]; [|done].
  simpl. destruct (truthy v).
  - destruct v; try done. by apply map_throw_forall.
  - intros [= <-]. constructor.
Qed.

Lemma emit_in items items' : In (Data items') (emit items) -> items' = items.
Proof. destruct items; simpl; [done|]. by intros [[= ->]|[]]. Qed.

(** Every item of every data frame written for a site carries the key
    and the name of that site, whether the frame comes from the cache or
    from upstream. *)
Theorem stream_items_name_their_site cm kw now s r items :
  In (Data items) (snd (branch_start cm kw now s))
  \/ In (Data items) (snd (branch_resume cm kw now s r)) ->
  Forall (tagged s) items.
Proof.
  intros [H|H].
  - rewrite branch_start_contribution in H.
    destruct (fst (branch_start cm kw now s)) as [s'|its|] eqn:E;
      simpl in H; try done.
    apply emit_in in H as ->.
    unfold branch_start in E.
    destruct (truthy _ && truthy _); [|done].
    destruct (if truthy _ then _ else _); try done.
    injection E as <-. apply List.Forall_forall. intros o Ho.
    apply in_map_iff in Ho as (x & <- & _). apply decorate_tagged.
  - unfold branch_resume in H. destruct r as [|data]; [done|].
    destruct (map_list (map_item s) data) as [l|] eqn:E; [|done].
    simpl in H. apply emit_in in H as ->.
    eapply map_list_forall; [|exact E]. apply map_item_tagged.
Qed.

Lemma stream_items_name_their_site_witness :
  Forall (tagged Scenario.siteA)
         [JObj [("vod_id", JNum 1); ("site_key", JStr "siteA");
                ("site_name", JStr "Site A")]].
Proof.
  apply (stream_items_name_their_site
           (set (new TJson) CSearch "siteA_x"
                (JObj [("list", JArr [JObj [("vod_id", JNum 1)]])]) 600 0)
           "x" 1 Scenario.siteA AxiosError).
  left. left. reflexivity.
Defined.

Lemma map_decorate_mapped s l :
  Forall (fun o => decorate s o = o) l -> map (decorate s) l = l.
Proof. induction 1 as [|o l Ho _ IH]; simpl; [done|]. by rewrite Ho, IH. Qed.

(** Persisted backend: for ten minutes after a site's upstream answer
    was stored, a streaming search for the same keyword settles that
    site's branch from the cache exactly as the fetch did: the same items
    and the same frame, and for an empty list no frame and no upstream
    request. *)
Theorem stream_repeat_same_frame cm kw s data l t0 now :
  type cm = TJson ->
  map_list (map_item s) data = Some l ->
  now < t0 + 600000 ->
  branch_resume cm kw t0 s (AxiosOk data)
  = (set cm CSearch (cacheKey (Site.key s) kw) (JObj [("list", JArr l)]) 600 t0,
     Fulfilled l, emit l)
  /\ branch_start (set cm CSearch (cacheKey (Site.key s) kw)
                       (JObj [("list", JArr l)]) 600 t0) kw now s
     = (Fulfilled l, emit l).
Proof.
  intros Ht Hmap Hlt. split. { unfold branch_resume. by rewrite Hmap. }
  unfold branch_start. rewrite json_get_set; [|done|lia]. simpl.
  rewrite map_decorate_mapped; [done|].
  eapply map_list_forall; [|exact Hmap]. apply decorate_map_item.
Qed.

Lemma stream_repeat_same_frame_witness :
  branch_start (set (new TJson) CSearch "siteA_batman"
                    (JObj [("list", JArr [])]) 600 0)
               "batman" 599999 Scenario.siteA
  = (Fulfilled [], []).
Proof.
  exact (proj2 (stream_repeat_same_frame (new TJson) "batman" Scenario.siteA
                  Scenario.upstream_empty [] 0 599999
                  eq_refl eq_refl eq_refl)).
Defined.

(** *** The length of a run *)

Lemma awaited_app bs1 bs2 :
  awaited (bs1 ++ bs2) = (awaited bs1 ++ awaited bs2)%list.
Proof. unfold awaited. apply omap_app. Qed.

Lemma awaited_cons b bs :
  awaited (b :: bs) = (awaited [b] ++ awaited bs)%list.
Proof. apply (awaited_app [b] bs). Qed.

Lemma awaited_settle bs i s b :
  bs !! i = Some (Awaiting s) -> is_fulfilled b = true ->
  S (length (awaited (<[i := b]> bs))) = length (awaited bs).
Proof.
  intros Hi Hb. pose proof (lookup_lt_Some _ _ _ Hi) as Hlt.
  rewrite insert_take_drop by done.
  rewrite <- (take_drop_middle _ _ _ Hi) at 3.
  rewrite !awaited_app, !length_app.
  rewrite (awaited_cons b (drop (S i) bs)).
  rewrite (awaited_cons (Awaiting s) (drop (S i) bs)).
  rewrite !length_app. destruct b; try done; simpl; lia.
Qed.

Lemma awaited_none bs :
  forallb is_fulfilled bs = true -> awaited bs = [].
Proof.
  induction bs as [|b bs IH]; simpl; [done|].
  intros H. apply andb_true_iff in H as [Hb H].
  destruct b; try done. by apply IH.
Qed.

Lemma awaited_length bs : (length (awaited bs) <= length bs)%nat.
Proof.
  induction bs as [|b bs IH]; [done|].
  rewrite (awaited_cons b bs), length_app. destruct b; simpl; lia.
Qed.

(** Every step uses up one unit of what is pending. *)
Lemma step_pending kw st st' : step kw st st' -> S (pending st') = pending st.
Proof.
  intros [st0 i s r now Hi|st0 Hall Hend]; unfold pending.
  - destruct (settle_unfold kw i r now st0 s Hi) as (cm' & b & _ & Hb & ->).
    simpl. rewrite <- (awaited_settle _ _ _ _ Hi Hb). lia.
  - simpl. rewrite Hend. lia.
Qed.

(** A streaming search over [n] sites takes at most [n + 1] steps: one
    per upstream request that was issued, and the terminal frame; and
    each step leaves one step less to take. *)
Theorem stream_run_bounded cm sites kw now st0 n st :
  get_search cm sites (Some kw) (Some "true") now = Streaming st0 ->
  nsteps kw n st0 st ->
  (n + pending st = pending st0)%nat /\ (n <= length sites + 1)%nat.
Proof.
  intros Hget Hn.
  assert (n + pending st = pending st0)%nat as Hsum.
  { clear Hget. induction Hn as [|n st1 st2 st3 _ IH Hstep]; [done|].
    apply step_pending in Hstep. lia. }
  split; [done|].
  apply get_search_streaming in Hget. subst st0.
  unfold pending in Hsum at 2. cbn [branches ended] in Hsum.
  pose proof (awaited_length (fst (start_all cm kw now sites))) as Hle.
  assert (length (fst (start_all cm kw now sites)) = length sites) as Hlen
    by (by rewrite start_all_branches, length_map).
  lia.
Qed.

Lemma stream_run_bounded_witness :
  exists st0 st,
    get_search (new TJson) [Scenario.siteA] (Some "x") (Some "true") 0
    = Streaming st0
    /\ nsteps "x" 2 st0 st
    /\ (2 + pending st = pending st0)%nat.
Proof.
  pose (st0 := {| cache := new TJson;
                  branches := fst (start_all (new TJson) "x" 0
                                             [Scenario.siteA]);
                  out := snd (start_all (new TJson) "x" 0 [Scenario.siteA]);
                  ended := false |}).
  pose (st := finish (settle "x" 0 AxiosError 1 st0)).
  assert (Hn : nsteps "x" 2 st0 st).
  { eapply nsteps_S; [eapply nsteps_S; [apply nsteps_O|] |].
    - by eapply (step_settle "x" _ 0%nat Scenario.siteA).
    - by apply step_finish. }
  exists st0, st. split; [reflexivity|]. split; [exact Hn|].
  exact (proj1 (stream_run_bounded (new TJson) [Scenario.siteA] "x" 0
                  st0 2 st eq_refl Hn)).
Defined.

(** Frames are only ever appended, and the frames of the cache hits,
    in the order of the site list, come before everything else. *)
Theorem stream_output_grows cm sites kw now st0 st :
  get_search cm sites (Some kw) (Some "true") now = Streaming st0 ->
  steps kw st0 st ->
  out st0 = concat (map (fun s => snd (branch_start cm kw now s)) sites)
  /\ exists later, out st = (out st0 ++ later)%list.
Proof.
  intros Hget Hsteps. split.
  - apply get_search_streaming in Hget. subst st0. simpl.
    by rewrite map_map.
  - clear Hget. induction Hsteps as [st|st1 st2 st3 _ [later IH] Hstep].
    + exists []. by rewrite app_nil_r.
    + destruct Hstep as [st2 i s r t Hi|st2 _ _].
      * destruct (settle_unfold kw i r t st2 s Hi) as (cm' & b & _ & _ & ->).
        simpl. rewrite IH, <- app_assoc. by eexists.
      * simpl. rewrite IH, <- app_assoc. by eexists.
Qed.

Lemma stream_output_grows_witness :
  exists st0,
    get_search (Scenario.seeded TJson) [Scenario.siteB; Scenario.siteA]
               (Some "batman") (Some "true") 1 = Streaming st0
    /\ length (out st0) = 1%nat.
Proof.
  eexists. split; [reflexivity|].
  destruct (stream_output_grows (Scenario.seeded TJson)
              [Scenario.siteB; Scenario.siteA] "batman" 1 _ _
              eq_refl (steps_refl _ _)) as [H _].
  rewrite H. reflexivity.
Defined.

End StreamMoreFacts.

(** ** The single-site endpoints *)

Module EndpointFacts.
Import Cache Search CacheFacts.

(** Persisted backend: a successful POST search stores the body it
    answers with, and for ten minutes the same request is answered with
    that body without an upstream request. *)
Theorem post_search_repeat cm sites kw siteKey s data l t0 now :
  type cm = TJson ->
  find (fun s => String.eqb (Site.key s) siteKey) sites = Some s ->
  map_list map_item_post data = Some l ->
  now < t0 + 600000 ->
  exists cm',
    post_search_resume cm kw siteKey t0 (AxiosOk data)
    = (cm', Http 200 (JObj [("list", JArr l)]))
    /\ post_search_start cm' sites kw siteKey now
       = Answer (Http 200 (JObj [("list", JArr l)])).
Proof.
  intros Ht Hf Hmap Hlt. eexists. split.
  - unfold post_search_resume. by rewrite Hmap.
  - unfold post_search_start. rewrite Hf.
    rewrite json_get_set; [done | done | lia].
Qed.

Lemma post_search_repeat_witness :
  exists cm',
    post_search_resume (new TJson) "batman" "siteA" 0
                       (AxiosOk Scenario.upstream_empty)
    = (cm', Http 200 (JObj [("list", JArr [])]))
    /\ post_search_start cm' [Scenario.siteA] "batman" "siteA" 7
       = Answer (Http 200 (JObj [("list", JArr [])])).
Proof.
  exact (post_search_repeat (new TJson) [Scenario.siteA] "batman" "siteA"
           Scenario.siteA Scenario.upstream_empty [] 0 7
           eq_refl eq_refl eq_refl eq_refl).
Defined.

End EndpointFacts.

(** ** The image cache: hits, repeats and the insertion counter *)

Module ImageMoreFacts.
Import Path PathFacts Image ImageFacts RunObs.

Section handler.

Variable __dirname : path.
Variable dirSize : Z.

(** A cache hit goes neither upstream nor to the counter: it sets the
    modification time of the file it serves to the time of the request
    and leaves its size and every other file alone. *)
Theorem image_hit_only_touches_mtime w now size filename p w' :
  image_start __dirname dirSize w now size filename
  = Answered (SendFile p) w' ->
  (exists st, files w !! p = Some st
              /\ files w' !! p
                 = Some (Stat (isDirectory st) (Image.size st) now))
  /\ (forall q, q <> p -> files w' !! q = files w !! q)
  /\ newItemCount w' = newItemCount w
  /\ scheduled w' = scheduled w.
Proof.
  unfold image_start.
  destruct (invalid size filename); [done|]. cbn [files logged].
  destruct (files w !! localPath __dirname size filename) as [st|] eqn:E;
    cbn [default].
  - destruct (0 <? Image.size st) eqn:Epos.
    + intros [= <- <-]. cbn [files logged with_files newItemCount scheduled].
      split; [|split; [|done]].
      * exists st. split; [done|]. by rewrite lookup_alter_eq, E.
      * intros q Hq. by rewrite lookup_alter_ne.
    + repeat case_match; done.
  - repeat case_match; done.
Qed.


End handler.

Lemma image_hit_only_touches_mtime_witness :
  exists w',
    image_start ["srv"] 4096
      (World (<[ ["srv"; "public"; "cache"; "images"; "w500"; "a.jpg"]
                 := Stat false 9 20 ]> ∅) 3 0 [])
      30 "w500" "a.jpg"
    = Answered (SendFile ["srv"; "public"; "cache"; "images"; "w500"; "a.jpg"])
               w'
    /\ newItemCount w' = 3.
Proof.
  pose (w := World (<[ ["srv"; "public"; "cache"; "images"; "w500"; "a.jpg"]
                      := Stat false 9 20 ]> ∅) 3 0 []).
  assert (E : exists w',
             image_start ["srv"] 4096 w 30 "w500" "a.jpg"
             = Answered (SendFile ["srv"; "public"; "cache"; "images";
                                   "w500"; "a.jpg"]) w').
  { eexists. vm_compute. reflexivity. }
  destruct E as [w' E]. exists w'. split; [exact E|].
  exact (proj1 (proj2 (proj2 (image_hit_only_touches_mtime ["srv"] 4096 w 30
                                "w500" "a.jpg" _ w' E)))).
Defined.


(** The insertion counter stays below the threshold of 50, and [k]
    completed downloads from a counter value [n] schedule one eviction
    pass each time the count reaches 50: [(n + k) / 50] passes in all,
    leaving the counter at [(n + k) mod 50]. *)
Theorem sweep_every_fiftieth_download k n :
  0 <= n < 50 ->
  fst (downloads k n) = (n + Z.of_nat k) mod 50
  /\ Z.of_nat (snd (downloads k n)) = (n + Z.of_nat k) / 50.
Proof.
  intros Hn. induction k as [|k [IH1 IH2]].
  - simpl. rewrite Z.add_0_r. rewrite Z.mod_small, Z.div_small by lia. done.
  - cbn [downloads]. destruct (downloads k n) as [n1 s1]. cbn [fst snd] in *.
    unfold Sweep.cleanCacheIfNeeded, Sweep.CLEAN_TRIGGER_THRESHOLD.
    replace (n + Z.of_nat (S k)) with (n + Z.of_nat k + 1) by lia.
    pose proof (Z.mod_pos_bound (n + Z.of_nat k) 50 ltac:(lia)) as Hb.
    pose proof (Z.div_mod (n + Z.of_nat k) 50 ltac:(lia)) as Hdm.
    destruct (n1 + 1 <? 50) eqn:E; cbn [fst snd].
    + split.
      * apply (Z.mod_unique _ _ ((n + Z.of_nat k) / 50)); lia.
      * apply (Z.div_unique _ _ _ (n1 + 1)); lia.
    + split.
      * apply (Z.mod_unique _ _ ((n + Z.of_nat k) / 50 + 1)); lia.
      * rewrite Nat2Z.inj_succ. apply (Z.div_unique _ _ _ 0); lia.
Qed.

Lemma sweep_every_fiftieth_download_witness :
  0 <= 0 < 50 /\ downloads 100 0 = (0, 2%nat).
Proof.
  assert (H : 0 <= 0 < 50) by lia.
  split; [exact H|].
  destruct (sweep_every_fiftieth_download 100 0 H) as [H1 H2].
  destruct (downloads 100 0) as [c s]. cbn [fst snd] in *.
  f_equal; [exact H1|]. apply Nat2Z.inj. exact H2.
Defined.

End ImageMoreFacts.

(** ** The eviction pass: how much it deletes *)

Module SweepMoreFacts.
Import Path Sweep SweepFacts.

Lemma sweep_within_budget_witness :
  traverseDir ["cache"] (Some (Dir [("a.jpg", File 1073741824 1)]))
  = Some (1073741824, [MkFile ["cache"; "a.jpg"] 1073741824 1])
  /\ 1073741824 <= maxBytes
  /\ deleted (fst (sweep (fun _ => true) ["cache"]
                         (Some (Dir [("a.jpg", File 1073741824 1)])))) = [].
Proof.
  assert (Ht : traverseDir ["cache"] (Some (Dir [("a.jpg", File 1073741824 1)]))
               = Some (1073741824, [MkFile ["cache"; "a.jpg"] 1073741824 1]))
    by reflexivity.
  assert (Hle : 1073741824 <= maxBytes) by (vm_compute; discriminate).
  split; [exact Ht|]. split; [exact Hle|].
  exact (proj1 (sweep_within_budget (fun _ => true) ["cache"] _ _ _ Ht Hle)).
Defined.

(** The pass does not delete more than it has to: for a total below
    2^50 bytes, before the last file it deleted the bytes deleted were
    still short of the target, so what stays on disk, plus that last
    file, is more than 90% of the budget. *)
Theorem sweep_does_not_overshoot ok dir root total files pre f :
  traverseDir dir root = Some (total, files) ->
  total > maxBytes ->
  total < 2 ^ 50 ->
  deleted (fst (sweep ok dir root)) = (pre ++ [f])%list ->
  9 * maxBytes < 10 * (total_size (remaining (fst (sweep ok dir root)))
                       + fsize f).
Proof.
  intros Ht Hgt Hlt Hd. rewrite (sweep_over_budget _ _ _ _ _ Ht Hgt) in *.
  pose proof (traverseDir_total _ _ _ _ Ht) as Htot.
  pose proof (total_size_split (fst (delete_loop ok total (sort files) 0)))
    as Hsplit.
  rewrite delete_loop_files, (total_size_perm _ _ (sort_perm files)) in Hsplit.
  pose proof (delete_loop_stops ok total (sort files) 0 pre f [] Hd) as Hstop.
  rewrite Hd, total_size_app in Hsplit. simpl in Hsplit.
  rewrite Z.add_0_l, reached_exact in Hstop by lia.
  apply Z.leb_gt in Hstop. lia.
Qed.

Lemma sweep_does_not_overshoot_witness :
  9 * maxBytes
  < 10 * (total_size (remaining (fst (sweep (fun _ => true) ["cache"]
                                            (Some Scenario.big_dir))))
          + 2147483648).
Proof.
  refine (sweep_does_not_overshoot (fun _ => true) ["cache"]
            (Some Scenario.big_dir) 2357198848 _
            [MkFile ["cache"; "a.jpg"] 104857600 1;
             MkFile ["cache"; "b.jpg"] 104857600 1]
            (MkFile ["cache"; "c.jpg"] 2147483648 2) _ _ _ _);
    reflexivity.
Defined.

End SweepMoreFacts.

(** ** Streaming search: what a run writes to the cache *)

Module StreamFrameFacts.
Import Cache Search SearchObs CacheFacts StreamFacts CacheFrameFacts.

Lemma steps_awaiting kw st0 st j s :
  steps kw st0 st -> branches st !! j = Some (Awaiting s) ->
  branches st0 !! j = Some (Awaiting s).
Proof.
  intros Hsteps. induction Hsteps as [|st1 st2 st3 _ IH Hstep]; [done|].
  intros Hj. apply IH. destruct Hstep as [st2 i s' r t Hi|st2 _ _].
  - by apply settle_awaiting in Hj as [Hj _].
  - done.
Qed.

Lemma branch_start_awaiting cm kw now s s' :
  fst (branch_start cm kw now s) = Awaiting s' -> s' = s.
Proof.
  unfold branch_start. destruct (truthy _ && truthy _).
  - by destruct (if truthy _ then _ else _).
  - by intros [= ->].
Qed.

Lemma start_all_awaiting cm kw now sites j s :
  fst (start_all cm kw now sites) !! j = Some (Awaiting s) -> In s sites.
Proof.
  rewrite start_all_branches. intros H.
  apply list_elem_of_lookup_2, list_elem_of_In, in_map_iff in H
    as (s0 & H & Hin).
  by apply branch_start_awaiting in H as ->.
Qed.

Lemma branch_resume_frame cm kw t s r c key now :
  c = CDetail \/ key <> cacheKey (Site.key s) kw ->
  get (fst (fst (branch_resume cm kw t s r))) c key now = get cm c key now.
Proof.
  intros Hk. unfold branch_resume. destruct r as [|data]; [done|].
  destruct (map_list _ data); [|done]. simpl.
  apply get_set_other. destruct Hk as [->|Hk]; [by left | right; congruence].
Qed.

Lemma steps_frame kw st0 st c key :
  steps kw st0 st ->
  c = CDetail
  \/ (forall j s, branches st0 !! j = Some (Awaiting s) ->
                  key <> cacheKey (Site.key s) kw) ->
  forall t, get (cache st) c key t = get (cache st0) c key t.
Proof.
  intros Hsteps Hk t.
  induction Hsteps as [|st1 st2 st3 H12 IH Hstep]; [done|].
  rewrite <- (IH Hk). destruct Hstep as [st2 i s r t' Hi|st2 _ _]; [|done].
  unfold settle. rewrite Hi.
  pose proof (branch_resume_frame (cache st2) kw t' s r c key t) as Hf.
  destruct (branch_resume (cache st2) kw t' s r) as [[cm' b] frames].
  simpl in *. apply Hf. destruct Hk as [->|Hk]; [by left|]. right.
  apply (Hk i). by eapply steps_awaiting.
Qed.

(** A streaming search none of whose cache keys is [__proto__] writes
    nothing but the search entries of its own sites for its own keyword:
    every detail entry, and every search entry under another key, reads
    the same in every state of the run as it did when the request
    arrived. *)
Theorem stream_run_writes_only_its_keys cm sites kw now st0 st c key :
  (forall s, In s sites -> cacheKey (Site.key s) kw <> proto_key) ->
  get_search cm sites (Some kw) (Some "true") now = Streaming st0 ->
  steps kw st0 st ->
  c = CDetail \/ (forall s, In s sites -> key <> cacheKey (Site.key s) kw) ->
  forall t, get (cache st) c key t = get cm c key t.
Proof.
  intros _ Hget Hsteps Hk t.
  apply get_search_streaming in Hget.
  rewrite (steps_frame kw st0 st c key Hsteps); [by subst st0|].
  destruct Hk as [->|Hk]; [by left|]. right. intros j s Hj.
  apply Hk. subst st0. by eapply start_all_awaiting.
Qed.

Lemma stream_run_writes_only_its_keys_witness :
  get (cache (settle "x" 0 (AxiosOk Scenario.upstream) 5
                {| cache := new TJson;
                   branches := fst (start_all (new TJson) "x" 0
                                              [Scenario.siteA]);
                   out := snd (start_all (new TJson) "x" 0 [Scenario.siteA]);
                   ended := false |}))
      CDetail "siteA_x" 6
  = get (new TJson) CDetail "siteA_x" 6.
Proof.
  eapply (stream_run_writes_only_its_keys (new TJson) [Scenario.siteA] "x" 0
            _ _ CDetail "siteA_x").
  - by intros s [<-|[]].
  - reflexivity.
  - eapply steps_step; [apply steps_refl|].
    by eapply (step_settle "x" _ 0%nat Scenario.siteA).
  - by left.
Defined.

End StreamFrameFacts.
